(** * build_rag.py: chunking, change detection and index synchronisation

    A shallow embedding of [scripts/build_rag.py] and the properties of its
    chunker, diff engine, state store and remote synchronisation.

    Conventions of the embedding:
    - Python [int] is [Z]; [str] is [string], one [ascii] per character (the
      code points below 256); [len] is [py_len].
    - A [dict] read by key is a [gmap]; a [dict] walked in insertion order (a
      parsed JSON object) is an association list.
    - [while] loops take fuel; running out of fuel is the outcome [Timeout]
      (or [None] for the bare chunker) and stands for a loop that has not
      finished yet.
    - Exceptions and [SystemExit] are the outcome [Err]. *)

From Stdlib Require Import ZArith Ascii String List Lia.
From stdpp Require Import base list strings gmap sorting pretty.

Local Open Scope Z_scope.
Set Warnings "-register-all".
Set Default Proof Using "Type*".

(** ** Python string primitives *)

Module Py.

Definition py_len (s : string) : Z := Z.of_nat (String.length s).

(** [str.isspace] on one character, for the code points below 256:
    TAB..CR, FS..US, SPACE, NEL and NBSP. *)
Definition isspace (c : ascii) : bool :=
  let n := nat_of_ascii c in
  ((9 <=? n) && (n <=? 13) || (28 <=? n) && (n <=? 32)
   || (n =? 133) || (n =? 160))%nat.

Fixpoint lstrip_by (p : ascii → bool) (l : list ascii) : list ascii :=
  match l with
  | c :: l' => if p c then lstrip_by p l' else l
  | [] => []
  end.

Definition rstrip_by (p : ascii → bool) (l : list ascii) : list ascii :=
  reverse (lstrip_by p (reverse l)).

Definition strip_by (p : ascii → bool) (s : string) : string :=
  string_of_list_ascii (rstrip_by p (lstrip_by p (list_ascii_of_string s))).

(** [s.strip()] *)
Definition strip : string → string := strip_by isspace.

(** Index normalisation of a slice bound: a negative bound counts from the
    end, and every bound is clamped into [0, len]. *)
Definition slice_bound (len i : Z) : Z :=
  if i <? 0 then Z.max 0 (len + i) else Z.min i len.

(** [s[start:stop]] *)
Definition slice (s : string) (start stop : Z) : string :=
  let a := slice_bound (py_len s) start in
  let b := slice_bound (py_len s) stop in
  substring (Z.to_nat a) (Z.to_nat (b - a)) s.

(** Truthiness of a [str]. *)
Definition truthy (s : string) : bool := negb (String.eqb s "").

End Py.

Import Py.

(** ** The chunker: [split_text] *)

(** The [while] loop of [split_text], entered with the loop variables
    [start], [end_] and the list [chunks] built so far. *)
Fixpoint split_loop (fuel : nat) (text : string) (chunk_size overlap : Z)
    (start end_ : Z) (chunks : list string) : option (list string) :=
  match fuel with
  | O => None
  | S fuel' =>
      let text_len := py_len text in
      if start <? text_len then
        let chunk := slice text start end_ in
        let chunks := chunks ++ [strip chunk] in
        if end_ >=? text_len then Some chunks
        else
          let start := Z.max 0 (end_ - overlap) in
          let end_ := Z.min text_len (start + chunk_size) in
          split_loop fuel' text chunk_size overlap start end_ chunks
      else Some chunks
  end.

Definition split_text (fuel : nat) (text : string) (chunk_size overlap : Z)
    : option (list string) :=
  if py_len text <=? chunk_size then Some [strip text]
  else
    chunks ← split_loop fuel text chunk_size overlap 0 chunk_size [];
    Some (filter (λ chunk, truthy chunk = true) chunks).

(** The windows [(start, end_)] the loop slices, in order: the same loop with
    the slicing left out.  It depends on the text through its length only. *)
Fixpoint split_windows (fuel : nat) (text_len chunk_size overlap : Z)
    (start end_ : Z) : option (list (Z * Z)) :=
  match fuel with
  | O => None
  | S fuel' =>
      if start <? text_len then
        if end_ >=? text_len then Some [(start, end_)]
        else
          let start' := Z.max 0 (end_ - overlap) in
          let end' := Z.min text_len (start' + chunk_size) in
          ws ← split_windows fuel' text_len chunk_size overlap start' end';
          Some ((start, end_) :: ws)
      else Some []
  end.

Definition window_chunk (text : string) (w : Z * Z) : string :=
  strip (slice text w.1 w.2).

(** What [split_text] keeps of the windows: the non-empty stripped contents. *)
Definition windows_chunks (text : string) (ws : list (Z * Z)) : list string :=
  filter (λ chunk, truthy chunk = true) (window_chunk text <$> ws).

(** ** Outcomes of the script *)

Inductive exn :=
  | SystemExit (msg : string)
  | ValueError
  | KeyError
  | JSONDecodeError
  | IntegrityError.

(** [Timeout] is not a Python outcome: it marks a loop that used up its fuel. *)
Inductive res (A : Type) :=
  | Ok (a : A)
  | Err (e : exn)
  | Timeout.
Arguments Ok {A} a.
Arguments Err {A} e.
Arguments Timeout {A}.

Global Instance res_ret : MRet res := λ A a, Ok a.
Global Instance res_bind : MBind res := λ A B f m,
  match m with
  | Ok a => f a
  | Err e => Err e
  | Timeout => Timeout
  end.

(** ** Parsed JSON and the document extractor *)

(** What [json.loads] returns.  A number is kept as its literal: the script
    only ever renders numbers.  A [dict] keeps its insertion order; its keys
    are distinct. *)
Inductive json :=
  | JNull
  | JBool (b : bool)
  | JNum (literal : string)
  | JStr (s : string)
  | JList (entries : list json)
  | JDict (items : list (string * json)).

Definition nl : string := String (ascii_of_nat 10) EmptyString.

(** The library functions the script calls but does not define. *)
Class Library := {
  (** [json.dumps(entry, ensure_ascii=False, indent=2)] *)
  json_dumps : json → string;
  (** [str] of the number with the given literal *)
  num_str : string → string;
  (** [hashlib.sha256(s.encode("utf-8")).hexdigest()] *)
  sha256_hexdigest : string → string
}.

Definition isalnum (c : ascii) : bool :=
  let n := nat_of_ascii c in
  ((48 <=? n) && (n <=? 57) || (65 <=? n) && (n <=? 90)
   || (97 <=? n) && (n <=? 122))%nat.

(** [re.sub(r"[^a-zA-Z0-9]+", "-", value)]: every maximal run of other
    characters becomes one hyphen.  [in_run] tells that the run the scan is
    in has been replaced already. *)
Fixpoint sub_non_alnum (in_run : bool) (l : list ascii) : list ascii :=
  match l with
  | [] => []
  | c :: l' =>
      if isalnum c then c :: sub_non_alnum false l'
      else if in_run then sub_non_alnum true l'
      else "-"%char :: sub_non_alnum true l'
  end.

(** [str.lower] on a character that is a letter, a digit or a hyphen. *)
Definition lower (c : ascii) : ascii :=
  let n := nat_of_ascii c in
  if ((65 <=? n) && (n <=? 90))%nat then ascii_of_nat (n + 32) else c.

Definition is_hyphen (c : ascii) : bool := Ascii.eqb c "-".

Definition slugify (value : string) : string :=
  let replaced := sub_non_alnum false (list_ascii_of_string value) in
  let stripped := rstrip_by is_hyphen (lstrip_by is_hyphen replaced) in
  let slug := string_of_list_ascii (lower <$> stripped) in
  if truthy slug then slug else "entry".

(** [entry.get(key)] on a parsed object. *)
Fixpoint dict_get (items : list (string * json)) (key : string) : option json :=
  match items with
  | [] => None
  | (k, v) :: items' => if String.eqb k key then Some v else dict_get items' key
  end.

Definition label_keys : list string :=
  ["title"; "company"; "name"; "question"; "label"; "role"].

Fixpoint guess_label_in (items : list (string * json)) (keys : list string)
    : option string :=
  match keys with
  | [] => None
  | key :: keys' =>
      match dict_get items key with
      | Some (JStr value) =>
          if truthy (strip value) then Some (strip value)
          else guess_label_in items keys'
      | _ => guess_label_in items keys'
      end
  end.

Definition guess_label (entry : json) : option string :=
  match entry with
  | JDict items => guess_label_in items label_keys
  | _ => None
  end.

Section Extractor.
Context {lib : Library}.

Definition render_body (entry : json) : string :=
  match entry with
  | JDict _ | JList _ => json_dumps entry
  | JStr s => s
  | JNum literal => num_str literal
  | JBool true => "True"
  | JBool false => "False"
  | JNull => "None"
  end.

Definition document_text (source topic body : string) : string :=
  strip ("Source: " +:+ source +:+ nl +:+ "Topic: " +:+ topic
         +:+ nl +:+ nl +:+ body).

(** The [(base_id, topic, text)] triples, in the order they are yielded. *)
Definition generate_documents (source : string) (payload : json)
    : list (string * string * string) :=
  match payload with
  | JList entries =>
      imap (λ i entry,
        let idx := S i in
        let topic :=
          default (source +:+ "-" +:+ pretty idx) (guess_label entry) in
        let body := render_body entry in
        let base_id := source +:+ "-" +:+ slugify topic in
        (base_id, topic, document_text source topic body)) entries
  | JDict items =>
      (λ '(key, value),
        let topic := key in
        let body := render_body value in
        let base_id := source +:+ "-" +:+ slugify topic in
        (base_id, topic, document_text source topic body)) <$> items
  | _ =>
      [(source +:+ "-all", source,
        "Source: " +:+ source +:+ nl +:+ nl +:+ render_body payload)]
  end.
End Extractor.

(** ** The chunk set: [build_chunks] *)

Record DocumentChunk := {
  chunk_id : string;
  source : string;
  topic : string;
  body : string;
  checksum : string
}.

Global Instance DocumentChunk_eq_dec : EqDecision DocumentChunk.
Proof. solve_decision. Defined.

(** What [json.loads(path.read_text())] gives for a file. *)
Inductive file_content :=
  | Parsed (payload : json)
  | Unparsable.

(** A directory listing: file names with their contents, in the order the
    file system enumerates them. *)
Definition listing := list (string * file_content).

Definition ends_with (suffix s : string) : bool :=
  let n := String.length s in
  let k := String.length suffix in
  ((k <=? n)%nat && String.eqb (substring (n - k) k s) suffix).

(** [data_dir.glob("*.json")] *)
Definition glob_json (files : listing) : listing :=
  filter (λ f, ends_with ".json" f.1 = true) files.

(** Paths of one directory compare as their file names do. *)
Definition path_le (f g : string * file_content) : Prop := String.le f.1 g.1.

Global Instance path_le_dec : RelDecision path_le.
Proof. intros f g. unfold path_le. apply _. Defined.

(** [sorted] on the paths of one directory. *)
Definition sorted_paths : listing → listing := merge_sort path_le.

(** [json_path.stem], for a name that ends in [.json]. *)
Definition path_stem (name : string) : string :=
  let stem := substring 0 (String.length name - 5) name in
  if truthy stem then stem else name.

Section Chunks.
Context {lib : Library}.

(** The innermost loop of [build_chunks]: the chunks of one document. *)
Definition document_chunks (fuel : nat) (name : string)
    (chunk_size overlap : Z) (doc : string * string * string)
    : res (list DocumentChunk) :=
  let '(base_id, topic, text) := doc in
  match split_text fuel text chunk_size overlap with
  | None => Timeout
  | Some pieces =>
      Ok (imap (λ i chunk_text,
            let idx := S i in
            {| chunk_id := base_id +:+ ":" +:+ pretty idx;
               source := name;
               topic := topic;
               body := chunk_text;
               checksum := sha256_hexdigest chunk_text |}) pieces)
  end.

Fixpoint documents_chunks (fuel : nat) (name : string)
    (chunk_size overlap : Z) (docs : list (string * string * string))
    : res (list DocumentChunk) :=
  match docs with
  | [] => Ok []
  | doc :: docs' =>
      cs ← document_chunks fuel name chunk_size overlap doc;
      rest ← documents_chunks fuel name chunk_size overlap docs';
      Ok (cs ++ rest)
  end.

Definition file_chunks (fuel : nat) (chunk_size overlap : Z)
    (f : string * file_content) : res (list DocumentChunk) :=
  match f.2 with
  | Unparsable => Err JSONDecodeError
  | Parsed payload =>
      documents_chunks fuel f.1 chunk_size overlap
        (generate_documents (path_stem f.1) payload)
  end.

Fixpoint files_chunks (fuel : nat) (chunk_size overlap : Z)
    (files : listing) : res (list DocumentChunk) :=
  match files with
  | [] => Ok []
  | f :: files' =>
      cs ← file_chunks fuel chunk_size overlap f;
      rest ← files_chunks fuel chunk_size overlap files';
      Ok (cs ++ rest)
  end.

(** [data_dir] is [None] when the directory does not exist. *)
Definition build_chunks (fuel : nat) (data_dir : option listing)
    (chunk_size overlap : Z) : res (list DocumentChunk) :=
  match data_dir with
  | None => Err (SystemExit "Data directory does not exist.")
  | Some files =>
      files_chunks fuel chunk_size overlap (sorted_paths (glob_json files))
  end.
End Chunks.

(** ** The state store *)

Record row := {
  r_id : string;
  r_source : string;
  r_topic : string;
  r_body : string;
  r_checksum : string;
  r_updated_at : string
}.

(** The SQLite file: absent, present without the table [rag_chunks], or
    holding the rows of the table. *)
Inductive sqlite_file :=
  | NoFile
  | NoTable
  | Table (rows : list row).

(** The dict comprehension [{row["id"]: row["checksum"] for row in rows}]. *)
Definition rows_dict (rows : list row) : gmap string string :=
  foldl (λ d r, <[r_id r := r_checksum r]> d) ∅ rows.

Definition load_existing_rows (db : sqlite_file) : gmap string string :=
  match db with
  | NoFile => ∅
  | NoTable => ∅
  | Table rows => rows_dict rows
  end.

(** One [INSERT]: the primary key [id] refuses a second row with the id. *)
Definition sql_insert (rows : list row) (r : row) : res (list row) :=
  if decide (r_id r ∈ r_id <$> rows) then Err IntegrityError
  else Ok (rows ++ [r]).

Fixpoint executemany (rows : list row) (params : list row) : res (list row) :=
  match params with
  | [] => Ok rows
  | r :: params' => rows' ← sql_insert rows r; executemany rows' params'
  end.

Definition chunk_row (now : string) (chunk : DocumentChunk) : row :=
  {| r_id := chunk_id chunk; r_source := source chunk; r_topic := topic chunk;
     r_body := body chunk; r_checksum := checksum chunk; r_updated_at := now |}.

(** [persist_sqlite]: the table is created when absent, then one transaction
    clears it and inserts a row per chunk; an exception inside the
    transaction rolls it back and is raised again. *)
Definition persist_sqlite (db : sqlite_file) (chunks : list DocumentChunk)
    (now : string) : res unit * sqlite_file :=
  let before := match db with Table rows => rows | _ => [] end in
  match executemany [] (chunk_row now <$> chunks) with
  | Ok rows => (Ok (), Table rows)
  | Err e => (Err e, Table before)
  | Timeout => (Timeout, Table before)
  end.

(** ** The diff *)

(** [sorted] on strings. *)
Definition sorted : list string → list string := merge_sort String.le.

Definition to_delete (existing_rows : gmap string string)
    (chunks : list DocumentChunk) : list string :=
  sorted (elements (dom existing_rows ∖ list_to_set (chunk_id <$> chunks))).

Definition to_refresh (existing_rows : gmap string string)
    (chunks : list DocumentChunk) : list DocumentChunk :=
  filter (λ chunk, existing_rows !! chunk_id chunk ≠ Some (checksum chunk))
    chunks.

(** ** Batching: [chunked] *)

(** The values of [range(0, stop, step)] for [0 ≤ stop] and [0 < step]. *)
Definition range_step (stop step : Z) : list Z :=
  (λ k, k * step) <$> seqZ 0 ((stop + step - 1) `div` step).

(** [chunked(sequence, size)], run to its end.  [range] raises on a zero
    step and is empty on a negative one. *)
Definition chunked {A} (sequence : list A) (size : Z) : res (list (list A)) :=
  if size =? 0 then Err ValueError
  else if size <? 0 then Ok []
  else Ok ((λ start, take (Z.to_nat size) (drop (Z.to_nat start) sequence))
             <$> range_step (Z.of_nat (length sequence)) size).

(** ** The remote services *)

Section Wire.
Context {vector : Type}.

Record metadata := {
  md_source : string;
  md_topic : string;
  md_checksum : string
}.

(** One element of the upsert payload. *)
Record vector_record := {
  vr_id : string;
  vr_values : vector;
  vr_metadata : metadata
}.

(** The body of a [requests.post], by endpoint.  The URL, the headers and
    the time limit are left out. *)
Inductive request :=
  | EmbedRequest (model : string) (input : list string)
  | UpsertRequest (vectors : list vector_record) (namespace : option string)
  | DeleteRequest (ids : list string) (namespace : option string).

(** A response: its status and the embeddings read from its JSON body
    ([None] when the body has no such data). *)
Record response := {
  status_code : Z;
  embeddings : option (list vector)
}.
End Wire.
Arguments metadata : clear implicits.
Arguments vector_record : clear implicits.
Arguments request : clear implicits.
Arguments response : clear implicits.

(** The services behind [requests.post]: any state machine that answers a
    request with a response. *)
Class Services := {
  vector : Type;
  remote : Type;
  requests_post : remote → request vector → remote * response vector
}.

Record Args := {
  pinecone_host : option string;
  pinecone_namespace : option string;
  pinecone_batch_size : Z;
  chunk_size : Z;
  chunk_overlap : Z;
  skip_pinecone : bool;
  embedding_model : string
}.

Record Env := {
  OPENAI_API_KEY : option string;
  PINECONE_API_KEY : option string
}.

Record OpenAIEmbeddings := {
  oe_api_key : string;
  oe_model : string;
  oe_batch_size : Z
}.

Record PineconeClient := {
  pc_base_url : string;
  pc_api_key : string;
  pc_namespace : option string;
  pc_batch_size : Z
}.

(** Truthiness of an optional [str]. *)
Definition truthy_opt (o : option string) : bool :=
  match o with
  | Some s => truthy s
  | None => false
  end.

(** The namespace entry of a payload: present when the namespace is truthy. *)
Definition payload_namespace (pinecone : PineconeClient) : option string :=
  if truthy_opt (pc_namespace pinecone) then pc_namespace pinecone else None.

Section Sync.
Context {lib : Library} {svc : Services}.

(** What a run reads and changes outside itself. *)
Record World := {
  w_data_dir : option listing;
  w_sqlite : sqlite_file;
  w_remote : remote;
  (** every [requests.post] of the run with its response, oldest first *)
  w_http : list (request vector * response vector);
  (** [datetime.now(timezone.utc).isoformat()] *)
  w_now : string
}.

(** Computations of the script: they read and change the world and end in
    an outcome. *)
Definition M (A : Type) : Type := World → res A * World.

Definition ret {A} (a : A) : M A := λ w, (Ok a, w).
Definition raise {A} (e : exn) : M A := λ w, (Err e, w).
Definition bind {A B} (m : M A) (k : A → M B) : M B := λ w,
  match m w with
  | (Ok a, w') => k a w'
  | (Err e, w') => (Err e, w')
  | (Timeout, w') => (Timeout, w')
  end.
Definition lift {A} (r : res A) : M A := λ w, (r, w).

Notation "x <~ m ;; k" := (bind m (λ x, k))
  (at level 100, m at next level, right associativity).
Notation "m ;;; k" := (bind m (λ _, k))
  (at level 100, right associativity).

Definition post (rq : request vector) : M (response vector) := λ w,
  let '(rem, rs) := requests_post (w_remote w) rq in
  (Ok rs, {| w_data_dir := w_data_dir w; w_sqlite := w_sqlite w;
             w_remote := rem; w_http := w_http w ++ [(rq, rs)];
             w_now := w_now w |}).

(** The loop of [OpenAIEmbeddings.embed] over the batches left. *)
Fixpoint embed_loop (self : OpenAIEmbeddings) (batches : list (list string))
    (vectors : list vector) : M (list vector) :=
  match batches with
  | [] => ret vectors
  | batch :: batches' =>
      response <~ post (EmbedRequest (oe_model self) batch);;
      if status_code response >=? 300 then
        raise (SystemExit "OpenAI embedding request failed")
      else
        match embeddings response with
        | None => raise KeyError
        | Some data => embed_loop self batches' (vectors ++ data)
        end
  end.

Definition embed (self : OpenAIEmbeddings) (texts : list string)
    : M (list vector) :=
  batches <~ lift (chunked texts (oe_batch_size self));;
  embed_loop self batches [].

Fixpoint upsert_loop (self : PineconeClient)
    (batches : list (list (vector_record vector))) : M unit :=
  match batches with
  | [] => ret ()
  | batch :: batches' =>
      response <~ post (UpsertRequest batch (payload_namespace self));;
      if status_code response >=? 300 then
        raise (SystemExit "Pinecone upsert failed")
      else upsert_loop self batches'
  end.

Definition upsert (self : PineconeClient)
    (vectors : list (vector_record vector)) : M unit :=
  batches <~ lift (chunked vectors (pc_batch_size self));;
  upsert_loop self batches.

Definition delete (self : PineconeClient) (ids : list string) : M unit :=
  response <~ post (DeleteRequest ids (payload_namespace self));;
  if status_code response >=? 300 then
    raise (SystemExit "Pinecone delete failed")
  else ret ().

Definition chunk_record (cv : DocumentChunk * vector)
    : vector_record vector :=
  {| vr_id := chunk_id cv.1;
     vr_values := cv.2;
     vr_metadata := {| md_source := source cv.1; md_topic := topic cv.1;
                       md_checksum := checksum cv.1 |} |}.

Definition upsert_chunks (pinecone : PineconeClient)
    (embeddings : option OpenAIEmbeddings) (chunks : list DocumentChunk)
    : M unit :=
  match chunks, embeddings with
  | [], _ | _, None => ret ()
  | _, Some client =>
      let texts := body <$> chunks in
      vectors <~ embed client texts;;
      let payload := chunk_record <$> zip chunks vectors in
      upsert pinecone payload
  end.

Definition persist (chunks : list DocumentChunk) : M unit := λ w,
  let '(r, db) := persist_sqlite (w_sqlite w) chunks (w_now w) in
  (r, {| w_data_dir := w_data_dir w; w_sqlite := db;
         w_remote := w_remote w; w_http := w_http w; w_now := w_now w |}).

(** [base_url.rstrip("/")] *)
Definition rstrip_slash (s : string) : string :=
  string_of_list_ascii
    (rstrip_by (λ c, Ascii.eqb c "/") (list_ascii_of_string s)).

Definition main (fuel : nat) (args : Args) (env : Env) : M unit :=
  let api_key := OPENAI_API_KEY env in
  if negb (truthy_opt api_key) && negb (skip_pinecone args) then
    raise (SystemExit "OPENAI_API_KEY is required")
  else
  let pinecone_key := PINECONE_API_KEY env in
  if negb (skip_pinecone args) && negb (truthy_opt pinecone_key) then
    raise (SystemExit "PINECONE_API_KEY is required")
  else if negb (skip_pinecone args) && negb (truthy_opt (pinecone_host args))
  then raise (SystemExit "PINECONE_HOST must be provided")
  else
  λ w,
  (chunks <~ lift (build_chunks fuel (w_data_dir w) (chunk_size args)
                     (chunk_overlap args));;
   let existing_rows := load_existing_rows (w_sqlite w) in
   let to_delete := to_delete existing_rows chunks in
   let to_refresh := to_refresh existing_rows chunks in
   let embeddings_client :=
     if negb (skip_pinecone args) then
       Some {| oe_api_key := default "" api_key;
               oe_model := embedding_model args; oe_batch_size := 32 |}
     else None in
   let pinecone :=
     if negb (skip_pinecone args) then
       Some {| pc_base_url := rstrip_slash (default "" (pinecone_host args));
               pc_api_key := default "" pinecone_key;
               pc_namespace := pinecone_namespace args;
               pc_batch_size := pinecone_batch_size args |}
     else None in
   match pinecone with
   | Some pinecone =>
       upsert_chunks pinecone embeddings_client to_refresh;;;
       match to_delete with
       | [] => ret ()
       | _ => delete pinecone to_delete
       end
   | None => ret ()
   end;;;
   persist chunks) w.
End Sync.

(** * The specification's words *)

(** A fresh chunk needs a refresh when its id is new or its checksum differs
    from the one recorded for the id. *)
Definition spec_needs_refresh (existing_rows : gmap string string)
    (chunk : DocumentChunk) : Prop :=
  existing_rows !! chunk_id chunk = None
  ∨ ∃ recorded, existing_rows !! chunk_id chunk = Some recorded
                ∧ recorded ≠ checksum chunk.

Global Instance spec_needs_refresh_dec existing_rows chunk :
  Decision (spec_needs_refresh existing_rows chunk).
Proof.
  unfold spec_needs_refresh.
  destruct (existing_rows !! chunk_id chunk) as [recorded|].
  - destruct (decide (recorded = checksum chunk)) as [->|Hne].
    + right. intros [?|(? & [= <-] & ?)]; done.
    + left. right. by exists recorded.
  - left. by left.
Defined.

(** The mapping [chunk_id → checksum] of a chunk list. *)
Definition chunks_dict (chunks : list DocumentChunk) : gmap string string :=
  foldl (λ d chunk, <[chunk_id chunk := checksum chunk]> d) ∅ chunks.

(** ** The steps of [main], named *)

Section Steps.
Context {lib : Library} {svc : Services}.

(** The three configuration checks [main] starts with. *)
Definition config_error (args : Args) (env : Env) : option string :=
  if negb (truthy_opt (OPENAI_API_KEY env)) && negb (skip_pinecone args)
  then Some "OPENAI_API_KEY is required"
  else if negb (skip_pinecone args)
          && negb (truthy_opt (PINECONE_API_KEY env))
  then Some "PINECONE_API_KEY is required"
  else if negb (skip_pinecone args) && negb (truthy_opt (pinecone_host args))
  then Some "PINECONE_HOST must be provided"
  else None.

Definition make_embeddings (args : Args) (env : Env) : OpenAIEmbeddings :=
  {| oe_api_key := default "" (OPENAI_API_KEY env);
     oe_model := embedding_model args; oe_batch_size := 32 |}.

Definition make_pinecone (args : Args) (env : Env) : PineconeClient :=
  {| pc_base_url := rstrip_slash (default "" (pinecone_host args));
     pc_api_key := default "" (PINECONE_API_KEY env);
     pc_namespace := pinecone_namespace args;
     pc_batch_size := pinecone_batch_size args |}.

(** The block of [main] under [if pinecone:]. *)
Definition remote_sync (args : Args) (env : Env)
    (to_refresh : list DocumentChunk) (to_delete : list string) : M unit :=
  if skip_pinecone args then ret ()
  else
    bind (upsert_chunks (make_pinecone args env)
            (Some (make_embeddings args env)) to_refresh)
      (λ _, match to_delete with
            | [] => ret ()
            | _ => delete (make_pinecone args env) to_delete
            end).

(** [main] from [build_chunks] on. *)
Definition run (fuel : nat) (args : Args) (env : Env) : M unit :=
  λ w,
  bind (lift (build_chunks fuel (w_data_dir w) (chunk_size args)
                (chunk_overlap args)))
    (λ chunks,
       let existing_rows := load_existing_rows (w_sqlite w) in
       bind (remote_sync args env (to_refresh existing_rows chunks)
               (to_delete existing_rows chunks))
         (λ _, persist chunks)) w.
End Steps.

(** A chunk is trimmed when neither its first nor its last character is
    white space. *)
Definition trimmed (s : string) : Prop :=
  let l := list_ascii_of_string s in
  (∀ c, head l = Some c → isspace c = false)
  ∧ (∀ c, last l = Some c → isspace c = false).

Definition substring_of (s text : string) : Prop :=
  ∃ pre post, text = pre +:+ s +:+ post.

(** The number of ids a delete request carries. *)
Definition ids_carried {V} (rq : request V) : nat :=
  match rq with
  | DeleteRequest ids _ => length ids
  | _ => 0%nat
  end.

Section Exchanges.
Context {svc : Services}.

Implicit Types (w : World) (new : list (request vector * response vector)).

(** A step that leaves the files, the store and the clock alone and adds
    the exchanges [new] to the log. *)
Definition adds {A} (m : M A) w new : Prop :=
  w_data_dir (m w).2 = w_data_dir w ∧ w_sqlite (m w).2 = w_sqlite w
  ∧ w_now (m w).2 = w_now w ∧ w_http (m w).2 = w_http w ++ new.

(** Either every exchange succeeded or the step ended in [SystemExit]. *)
Definition fail_fast {A} (r : res A) new : Prop :=
  Forall (λ x, status_code x.2 < 300) new ∨ ∃ msg, r = Err (SystemExit msg).

(** A step that only talks to the services, stops at the first failed
    exchange, and sends only requests of the kind [φ]. *)
Definition remote_step {A} (φ : request vector * response vector → Prop)
    (m : M A) : Prop :=
  ∀ w, ∃ new, adds m w new ∧ fail_fast (m w).1 new ∧ Forall φ new.

Definition any_exchange (x : request vector * response vector) : Prop := True.

(** An upsert request of the client: a batch within the batch size. *)
Definition upsert_batch_of (self : PineconeClient)
    (x : request vector * response vector) : Prop :=
  ∃ batch, x.1 = UpsertRequest batch (payload_namespace self)
           ∧ (1 ≤ length batch)%nat
           ∧ Z.of_nat (length batch) ≤ pc_batch_size self.
End Exchanges.

(** ** The shape of a slug *)

(** A lower-case letter or a digit. *)
Definition slug_char (c : ascii) : bool :=
  let n := nat_of_ascii c in
  ((48 <=? n) && (n <=? 57) || (97 <=? n) && (n <=? 122))%nat.

(** No two hyphens side by side. *)
Fixpoint hyphens_apart (l : list ascii) : Prop :=
  match l with
  | a :: (b :: _) as l' => ¬ (a = "-"%char ∧ b = "-"%char) ∧ hyphens_apart l'
  | _ => True
  end.

(** Words of lower-case letters and digits joined by single hyphens. *)
Definition slug_shape (s : string) : Prop :=
  let l := list_ascii_of_string s in
  l ≠ []
  ∧ Forall (λ c, slug_char c = true ∨ c = "-"%char) l
  ∧ head l ≠ Some "-"%char ∧ last l ≠ Some "-"%char
  ∧ hyphens_apart l.

(** ** The log of a run *)

(** The part of the synchronisation a request belongs to: embedding first,
    then upserts, then the delete. *)
Definition phase {V} (rq : request V) : Z :=
  match rq with
  | EmbedRequest _ _ => 0
  | UpsertRequest _ _ => 1
  | DeleteRequest _ _ => 2
  end.

(** The texts an embedding request carries. *)
Definition request_input {V} (rq : request V) : list string :=
  match rq with
  | EmbedRequest _ input => input
  | _ => []
  end.


Section Logs.
Context {svc : Services}.

Implicit Types (w : World) (new : list (request vector * response vector)).

(** Every exchange but the last succeeded. *)
Fixpoint ok_but_last new : Prop :=
  match new with
  | x :: (_ :: _) as rest => status_code x.2 < 300 ∧ ok_but_last rest
  | _ => True
  end.

Definition in_phase_order new : Prop :=
  StronglySorted (λ x y, phase x.1 ≤ phase y.1) new.

(** A step that sends requests of the kind [φ] and of the phases [lo] to
    [hi], in the order of the phases, and stops at the first failure. *)
Definition tidy {A} (lo hi : Z)
    (φ : request vector * response vector → Prop) (m : M A) : Prop :=
  ∀ w, ∃ new,
    adds m w new ∧ Forall φ new
    ∧ Forall (λ x, lo ≤ phase x.1 ≤ hi) new
    ∧ in_phase_order new ∧ ok_but_last new
    ∧ (∀ a, (m w).1 = Ok a → Forall (λ x, status_code x.2 < 300) new).

(** What a run may send, given what its diff found: the bodies of chunks to
    refresh to the embedding service under the configured model, records
    made of chunks to refresh to the index, and the ids to delete, all of
    them, in one request. *)
Definition run_request (args : Args) (to_refresh : list DocumentChunk)
    (to_delete : list string) (x : request vector * response vector) : Prop :=
  match x.1 with
  | EmbedRequest model input =>
      model = embedding_model args ∧ input ≠ []
      ∧ input ⊆ body <$> to_refresh
  | UpsertRequest vectors namespace =>
      vectors ≠ []
      ∧ Forall (λ record, ∃ chunk values,
                  chunk ∈ to_refresh
                  ∧ record = chunk_record (chunk, values)) vectors
  | DeleteRequest ids namespace => ids = to_delete ∧ ids ≠ []
  end.
End Logs.

(** * Sample inputs *)

(** The text made of [n] copies of one character. *)
Definition uniform_text (c : ascii) (n : nat) : string :=
  string_of_list_ascii (replicate n c).

(** Two entries of one list with the same title. *)
Definition faq_same_title : listing :=
  [("faq.json",
    Parsed (JList [JDict [("title", JStr "A")]; JDict [("title", JStr "A")]]))].

(** Stand-ins for the library functions, to run the script on samples. *)
Definition sample_library : Library :=
  {| json_dumps := λ _, "{}";
     num_str := λ literal, literal;
     sha256_hexdigest := λ s, "sha256 of " +:+ s |}.

Definition sample_dir : gmap string file_content :=
  {[ "faq.json" := Parsed (JList [JDict [("question", JStr "What is X?")]]);
     "about.json" := Parsed (JStr "hello");
     "notes.txt" := Unparsable ]}.

(** A service that answers every request with the given status and, to an
    embedding request, with one vector per text. *)
Definition answering (status : Z) : Services :=
  {| vector := Z;
     remote := unit;
     requests_post := λ _ rq,
       ((), {| status_code := status;
               embeddings :=
                 match rq with
                 | EmbedRequest _ input => Some (replicate (length input) 0)
                 | _ => None
                 end |}) |}.

Definition sample_args : Args :=
  {| pinecone_host := Some "https://index.example/";
     pinecone_namespace := None;
     pinecone_batch_size := 32;
     chunk_size := 900;
     chunk_overlap := 150;
     skip_pinecone := false;
     embedding_model := "text-embedding-3-small" |}.

Definition sample_env : Env :=
  {| OPENAI_API_KEY := Some "sk"; PINECONE_API_KEY := Some "pk" |}.

Definition sample_world (status : Z) : World (svc := answering status) :=
  @Build_World (answering status) (Some (map_to_list sample_dir)) NoFile
    () [] "2024-01-01T00:00:00+00:00".

(** The world a sample run leaves. *)
Definition sample_after (status : Z) : World (svc := answering status) :=
  (main (lib := sample_library) 5 sample_args sample_env
     (sample_world status)).2.

(** The world of a second run: the same files, the store the first run
    left, an empty log. *)
Definition sample_again : World (svc := answering 200) :=
  @Build_World (answering 200) (Some (map_to_list sample_dir))
    (w_sqlite (sample_after 200)) () [] "2024-01-02T00:00:00+00:00".

Definition sample_chunks : list DocumentChunk :=
  [ {| chunk_id := "faq-a:1"; source := "faq.json"; topic := "A";
       body := "first"; checksum := "h1" |};
    {| chunk_id := "faq-a:2"; source := "faq.json"; topic := "A";
       body := "second"; checksum := "h2" |} ].

(** The world of a run that finds two stale rows in the store. *)
Definition sample_stale_world : World (svc := answering 200) :=
  @Build_World (answering 200) (Some (map_to_list sample_dir))
    (Table (chunk_row "2023-12-31T00:00:00+00:00" <$> sample_chunks))
    () [] "2024-01-01T00:00:00+00:00".

(** The chunks of the sample directory. *)
Definition sample_built : list DocumentChunk :=
  match build_chunks (lib := sample_library) 5
          (Some (map_to_list sample_dir)) 900 150 with
  | Ok chunks => chunks
  | _ => []
  end.

(** * Properties *)

(** ** The definitions on small inputs *)

Example split_text_short : split_text 0 "  hello " 900 150 = Some ["hello"].
Proof. reflexivity. Qed.

Example split_text_long :
  split_text 5 "abcdefghij" 4 1 = Some ["abcd"; "defg"; "ghij"].
Proof. reflexivity. Qed.

Example slugify_question : slugify "What is X?" = "what-is-x".
Proof. reflexivity. Qed.

Example slugify_empty : slugify "?!" = "entry".
Proof. reflexivity. Qed.

Example guess_label_question :
  guess_label (JDict [("id", JNum "1"); ("question", JStr " What is X? ")])
  = Some "What is X?".
Proof. reflexivity. Qed.

Example chunked_5_2 :
  chunked ["a"; "b"; "c"; "d"; "e"] 2 = Ok [["a"; "b"]; ["c"; "d"]; ["e"]].
Proof. reflexivity. Qed.


(** ** Stripping and slicing *)

Section Strip.
Variable p : ascii → bool.

Lemma lstrip_by_head l c : head (lstrip_by p l) = Some c → p c = false.
Proof.
  induction l as [|a l IH]; simpl; [done|].
  destruct (p a) eqn:Ha; [done|]. simpl. by intros [= <-].
Qed.

Lemma lstrip_by_snoc l c :
  p c = false → lstrip_by p (l ++ [c]) = lstrip_by p l ++ [c].
Proof.
  intros Hc. induction l as [|a l IH]; simpl.
  - by rewrite Hc.
  - by destruct (p a).
Qed.

Lemma rstrip_by_cons c l :
  p c = false → rstrip_by p (c :: l) = c :: rstrip_by p l.
Proof.
  intros Hc. unfold rstrip_by.
  by rewrite reverse_cons, lstrip_by_snoc, reverse_app.
Qed.

Lemma lstrip_by_suffix l : ∃ pre, l = pre ++ lstrip_by p l.
Proof.
  induction l as [|a l [pre IH]]; simpl; [by exists []|].
  destruct (p a); [|by exists []].
  exists (a :: pre). simpl. by f_equal.
Qed.

Lemma rstrip_by_prefix l : ∃ post, l = rstrip_by p l ++ post.
Proof.
  unfold rstrip_by. destruct (lstrip_by_suffix (reverse l)) as [pre Hpre].
  exists (reverse pre).
  by rewrite <-reverse_app, <-Hpre, reverse_involutive.
Qed.

Lemma rstrip_by_last l c : last (rstrip_by p l) = Some c → p c = false.
Proof. unfold rstrip_by. rewrite last_reverse. apply lstrip_by_head. Qed.

(** Stripping leaves no character of the stripped kind at either end. *)
Lemma strip_chars_head l c :
  head (rstrip_by p (lstrip_by p l)) = Some c → p c = false.
Proof.
  destruct (lstrip_by p l) as [|a m] eqn:Hm; [done|].
  assert (p a = false) as Ha by (apply (lstrip_by_head l); by rewrite Hm).
  rewrite rstrip_by_cons by done. simpl. by intros [= <-].
Qed.

(** A text that starts with a character that is kept still starts with it
    once stripped. *)
Lemma strip_by_keeps_head c s :
  p c = false → ∃ s', strip_by p (String c s) = String c s'.
Proof.
  intros Hc. unfold strip_by. simpl. rewrite Hc.
  rewrite rstrip_by_cons by done. simpl. eauto.
Qed.
End Strip.

Lemma strip_trimmed s : trimmed (strip s).
Proof.
  unfold trimmed, strip, strip_by. simpl.
  rewrite list_ascii_of_string_of_list_ascii. split; intros c.
  - apply strip_chars_head.
  - apply rstrip_by_last.
Qed.

Lemma string_of_list_ascii_app l1 l2 :
  string_of_list_ascii (l1 ++ l2)
  = string_of_list_ascii l1 +:+ string_of_list_ascii l2.
Proof. induction l1 as [|a l1 IH]; simpl; [done|]. by rewrite IH. Qed.

Lemma string_app_assoc (a b c : string) : (a +:+ b) +:+ c = a +:+ (b +:+ c).
Proof. induction a as [|x a IH]; [done|]. exact (f_equal (String x) IH). Qed.

Lemma string_app_nil_r (a : string) : a +:+ "" = a.
Proof. induction a as [|x a IH]; [done|]. exact (f_equal (String x) IH). Qed.

Lemma substring_of_refl s : substring_of s s.
Proof. exists "", "". symmetry. apply string_app_nil_r. Qed.

Lemma substring_of_trans a b c :
  substring_of a b → substring_of b c → substring_of a c.
Proof.
  intros (p1 & q1 & ->) (p2 & q2 & ->).
  exists (p2 +:+ p1), (q1 +:+ q2). by rewrite !string_app_assoc.
Qed.

Lemma strip_by_substring p s : substring_of (strip_by p s) s.
Proof.
  unfold strip_by.
  destruct (lstrip_by_suffix p (list_ascii_of_string s)) as [pre Hpre].
  destruct (rstrip_by_prefix p (lstrip_by p (list_ascii_of_string s)))
    as [post Hpost].
  exists (string_of_list_ascii pre), (string_of_list_ascii post).
  rewrite <-!string_of_list_ascii_app, <-Hpost, <-Hpre.
  by rewrite string_of_list_ascii_of_string.
Qed.

Lemma substring_0_prefix m s : ∃ post, s = substring 0 m s +:+ post.
Proof.
  revert m. induction s as [|c s IH]; intros [|m]; simpl; try by exists "".
  - by exists (String c s).
  - destruct (IH m) as [post Hs]. exists post.
    exact (f_equal (String c) Hs).
Qed.

Lemma substring_substring_of n m s : substring_of (substring n m s) s.
Proof.
  revert n. induction s as [|c s IH]; intros n.
  - exists "", "". by destruct n, m.
  - destruct n as [|n].
    + destruct (substring_0_prefix m (String c s)) as [post Hs].
      by exists "", post.
    + destruct (IH n) as (pre & post & Hs).
      exists (String c pre), post. exact (f_equal (String c) Hs).
Qed.

Lemma slice_substring_of text a b : substring_of (slice text a b) text.
Proof. apply substring_substring_of. Qed.

Lemma length_substring n m s :
  (n + m ≤ String.length s)%nat → String.length (substring n m s) = m.
Proof.
  revert n m. induction s as [|c s IH]; intros [|n] [|m]; simpl; try lia.
  - intros. f_equal. apply IH. lia.
  - intros. apply IH. lia.
  - intros. apply IH. lia.
Qed.

(** ** The chunker *)

(** The chunks the loop collects are the stripped contents of its windows. *)
Lemma split_loop_windows fuel text cs ov start end_ chunks :
  split_loop fuel text cs ov start end_ chunks
  = ws ← split_windows fuel (py_len text) cs ov start end_;
    Some (chunks ++ (window_chunk text <$> ws)).
Proof.
  revert start end_ chunks. induction fuel as [|fuel IH]; intros; [done|].
  simpl. destruct (start <? py_len text); simpl.
  - destruct (end_ >=? py_len text); simpl; [done|].
    rewrite IH.
    destruct (split_windows fuel _ _ _ _ _) as [ws|]; simpl; [|done].
    by rewrite <-app_assoc.
  - by rewrite app_nil_r.
Qed.

Lemma split_text_windows fuel text cs ov :
  split_text fuel text cs ov
  = if py_len text <=? cs then Some [strip text]
    else windows_chunks text <$> split_windows fuel (py_len text) cs ov 0 cs.
Proof.
  unfold split_text. destruct (py_len text <=? cs); [done|].
  rewrite split_loop_windows.
  by destruct (split_windows fuel _ _ _ _ _).
Qed.

(** With [overlap < chunk_size] every turn of the loop moves [end_] forward,
    so the loop ends within [text_len - end_] further turns. *)
Lemma split_windows_terminates fuel len cs ov start end_ :
  ov < cs → (Z.to_nat (len - end_) < fuel)%nat →
  is_Some (split_windows fuel len cs ov start end_).
Proof.
  intros Hov. revert start end_.
  induction fuel as [|fuel IH]; intros start end_ Hfuel; [lia|].
  simpl. destruct (start <? len); [|by eexists].
  destruct (end_ >=? len) eqn:Hend; [by eexists|].
  destruct (IH (Z.max 0 (end_ - ov))
              (Z.min len (Z.max 0 (end_ - ov) + cs))) as [ws ->];
    [lia|]. simpl. by eexists.
Qed.

Lemma split_text_terminates text cs ov :
  0 < cs → ov < cs →
  is_Some (split_text (S (String.length text)) text cs ov).
Proof.
  intros Hcs Hov. rewrite split_text_windows.
  destruct (py_len text <=? cs) eqn:Hlen; [by eexists|].
  destruct (split_windows_terminates (S (String.length text)) (py_len text)
              cs ov 0 cs Hov) as [ws ->]; [unfold py_len; lia|].
  simpl. by eexists.
Qed.

(** More fuel does not change a result. *)
Lemma split_windows_fuel fuel fuel' len cs ov start end_ ws :
  split_windows fuel len cs ov start end_ = Some ws → (fuel ≤ fuel')%nat →
  split_windows fuel' len cs ov start end_ = Some ws.
Proof.
  revert fuel' start end_ ws.
  induction fuel as [|fuel IH]; intros fuel' start end_ ws; [done|].
  intros Hws Hle. destruct fuel' as [|fuel']; [lia|]. simpl in *.
  destruct (start <? len); [|done].
  destruct (end_ >=? len); [done|].
  destruct (split_windows fuel _ _ _ _ _) as [ws'|] eqn:Hrec; [|done].
  by rewrite (IH fuel' _ _ ws') by (done || lia).
Qed.

Lemma truthy_nonempty s : truthy s = true ↔ s ≠ "".
Proof.
  unfold truthy. destruct (String.eqb_spec s ""); simpl; split; congruence.
Qed.

Lemma window_chunk_trimmed text w :
  trimmed (window_chunk text w) ∧ substring_of (window_chunk text w) text.
Proof.
  split; [apply strip_trimmed|].
  eapply substring_of_trans; [apply strip_by_substring|].
  apply slice_substring_of.
Qed.

(** C8 (amended).  Whenever [split_text] returns, which it does at least when
    [0 < chunk_size] and [overlap < chunk_size], every chunk it returns is a white-space-trimmed
    substring of the text.  On the windowed path ([len(text) > chunk_size])
    every chunk is non-empty, chunks empty after trimming being dropped; when
    [len(text) ≤ chunk_size] the result is the single chunk [text.strip()],
    whatever it is. *)
Theorem split_text_chunks_trimmed text cs ov :
  (0 < cs → ov < cs →
   is_Some (split_text (S (String.length text)) text cs ov))
  ∧ ∀ fuel chunks, split_text fuel text cs ov = Some chunks →
      Forall (λ c, trimmed c ∧ substring_of c text) chunks
      ∧ (cs < py_len text → Forall (λ c, c ≠ "") chunks)
      ∧ (py_len text ≤ cs → chunks = [strip text]).
Proof.
  split; [apply split_text_terminates|].
  intros fuel chunks. rewrite split_text_windows.
  destruct (py_len text <=? cs) eqn:Hlen.
  - intros [= <-]. split; [|split; [lia|done]].
    constructor; [|done]. split; [apply strip_trimmed|].
    apply strip_by_substring.
  - destruct (split_windows fuel _ _ _ _ _) as [ws|]; [|done].
    simpl. intros [= <-]. unfold windows_chunks. split; [|split; [|lia]].
    + apply Forall_forall. intros c [_ Hc]%list_elem_of_filter.
      apply list_elem_of_fmap in Hc as [w [-> _]].
      apply window_chunk_trimmed.
    + intros _. apply Forall_forall. intros c [Hc _]%list_elem_of_filter.
      by apply truthy_nonempty.
Qed.

Lemma split_text_chunks_trimmed_witness :
  is_Some (split_text 11 "abcdefghij" 4 1)
  ∧ Forall (λ c, trimmed c ∧ substring_of c "abcdefghij")
      ["abcd"; "defg"; "ghij"].
Proof.
  split.
  - apply (proj1 (split_text_chunks_trimmed "abcdefghij" 4 1)); lia.
  - apply (proj2 (split_text_chunks_trimmed "abcdefghij" 4 1) 5%nat).
    reflexivity.
Defined.

(** C8, as stated, fails on the short path: a blank text no longer than
    [chunk_size] comes back as one empty chunk. *)
Lemma split_text_blank_gives_empty_chunk :
  0 < 900 ∧ split_text 1 "   " 900 150 = Some [""]
  ∧ ¬ Forall (λ c, c ≠ "") [""].
Proof.
  split; [lia|]. split; [reflexivity|].
  intros Hall. by inv Hall.
Qed.

Lemma filter_all {A} (P : A → Prop) `{∀ x, Decision (P x)} (l : list A) :
  Forall P l → filter P l = l.
Proof.
  induction 1 as [|x l Hx _ IH]; [done|].
  by rewrite filter_cons_True, IH.
Qed.

(** The windows of a 2000-character text cut with the default sizes. *)
Lemma split_windows_2000 fuel :
  (3 ≤ fuel)%nat →
  split_windows fuel 2000 900 150 0 900
  = Some [(0, 900); (750, 1650); (1500, 2000)].
Proof.
  intros Hfuel. do 3 (destruct fuel as [|fuel]; [lia|]). reflexivity.
Qed.

Lemma py_len_slice text a b :
  0 ≤ a ≤ b → b ≤ py_len text → py_len (slice text a b) = b - a.
Proof.
  intros Hab Hb. unfold slice, slice_bound.
  destruct (a <? 0) eqn:Ha; [lia|]. destruct (b <? 0) eqn:Hb0; [lia|].
  unfold py_len in *. rewrite length_substring; lia.
Qed.

(** C7 (amended).  A text of exactly 2000 characters, cut with
    [chunk_size = 900] and [overlap = 150], has its windows at the character
    ranges [0,900), [750,1650) and [1500,2000): three windows of 900, 900 and
    500 characters, the last one shorter.  The chunks returned are the
    non-empty stripped contents of these windows in order: at most three,
    and exactly three when no window is blank. *)
Theorem split_text_2000_windows text fuel :
  py_len text = 2000 → (3 ≤ fuel)%nat →
  let windows := [(0, 900); (750, 1650); (1500, 2000)] in
  split_windows fuel (py_len text) 900 150 0 900 = Some windows
  ∧ (py_len (slice text 0 900) = 900 ∧ py_len (slice text 750 1650) = 900
     ∧ py_len (slice text 1500 2000) = 500)
  ∧ ∃ chunks,
      split_text fuel text 900 150 = Some chunks
      ∧ chunks = windows_chunks text windows
      ∧ (length chunks ≤ 3)%nat
      ∧ (Forall (λ w, window_chunk text w ≠ "") windows →
         chunks = window_chunk text <$> windows).
Proof.
  intros Hlen Hfuel windows. rewrite Hlen.
  split; [by apply split_windows_2000|].
  split; [by rewrite !py_len_slice by lia|].
  exists (windows_chunks text windows).
  split; [|split; [done|split]].
  - rewrite split_text_windows, Hlen.
    replace (2000 <=? 900) with false by done.
    by rewrite split_windows_2000.
  - unfold windows_chunks.
    etrans; [apply length_filter|]. by rewrite length_fmap.
  - intros Hall. unfold windows_chunks. apply filter_all.
    apply Forall_fmap. eapply Forall_impl; [exact Hall|].
    intros w Hw. by apply truthy_nonempty.
Qed.

Lemma split_text_2000_windows_witness :
  split_windows 3 (py_len (uniform_text "a" 2000)) 900 150 0 900
  = Some [(0, 900); (750, 1650); (1500, 2000)].
Proof.
  apply (split_text_2000_windows (uniform_text "a" 2000) 3);
    [by vm_compute|lia].
Defined.

(** C7, as stated, fails on a text with a blank window: of 2000 spaces no
    chunk is left, although the three windows are cut. *)
Lemma split_text_2000_spaces_no_chunks :
  py_len (uniform_text " " 2000) = 2000
  ∧ split_text 3 (uniform_text " " 2000) 900 150 = Some [].
Proof. split; by vm_compute. Qed.

(** The loop never leaves its first window when the overlap is not smaller
    than the chunk size. *)
Lemma split_loop_diverges fuel text cs ov chunks :
  0 < cs → cs ≤ ov → cs < py_len text →
  split_loop fuel text cs ov 0 cs chunks = None.
Proof.
  intros Hcs Hov Hlen. revert chunks.
  induction fuel as [|fuel IH]; intros chunks; [done|].
  simpl. replace (0 <? py_len text) with true by lia.
  replace (cs >=? py_len text) with false by lia.
  replace (Z.max 0 (cs - ov)) with 0 by lia.
  replace (Z.min (py_len text) (0 + cs)) with cs by lia.
  apply IH.
Qed.

(** C4 (the code departs from it).  With [0 < chunk_size ≤ overlap] and a
    text longer than [chunk_size], the next window start [max(0, end -
    overlap)] is 0 again and the next end is [chunk_size] again: the loop
    makes no progress and [split_text] returns on no amount of fuel. *)
Theorem split_text_overlap_ge_chunk_size_diverges text cs ov :
  0 < cs → cs ≤ ov → cs < py_len text →
  ∀ fuel, split_text fuel text cs ov = None.
Proof.
  intros Hcs Hov Hlen fuel. unfold split_text.
  replace (py_len text <=? cs) with false by lia.
  by rewrite split_loop_diverges.
Qed.

Lemma split_text_overlap_ge_chunk_size_diverges_witness :
  split_text 1000 "abcdefghij" 5 5 = None.
Proof.
  apply (split_text_overlap_ge_chunk_size_diverges "abcdefghij" 5 5);
    by vm_compute.
Defined.

(** Where the overlap is smaller than the chunk size and not negative, the
    loop does what C4 says: the last window, and only the last, ends at the
    end of the text. *)
Lemma split_windows_reach_end fuel len cs ov start end_ ws :
  0 ≤ ov < cs → 0 ≤ start < len → end_ ≤ len →
  split_windows fuel len cs ov start end_ = Some ws →
  ∃ ws' s, ws = ws' ++ [(s, len)] ∧ Forall (λ w, w.2 < len) ws'.
Proof.
  intros Hov. revert start end_ ws.
  induction fuel as [|fuel IH]; intros start end_ ws Hstart Hend; [done|].
  simpl. replace (start <? len) with true by lia.
  destruct (end_ >=? len) eqn:Hge.
  - intros [= <-]. exists [], start. replace end_ with len by lia. by split.
  - destruct (split_windows fuel _ _ _ _ _) as [ws1|] eqn:Hrec; [|done].
    simpl. intros [= <-].
    apply IH in Hrec as (ws' & s & -> & Hall); [|lia..].
    exists ((start, end_) :: ws'), s. split; [done|].
    constructor; [simpl; lia|done].
Qed.

(** ** The diff *)

Lemma elem_of_to_delete existing_rows chunks id :
  id ∈ to_delete existing_rows chunks
  ↔ id ∈ dom existing_rows ∧ id ∉ chunk_id <$> chunks.
Proof.
  unfold to_delete, sorted. rewrite merge_sort_Permutation.
  rewrite elem_of_elements, elem_of_difference, elem_of_list_to_set. done.
Qed.

Lemma to_refresh_spec existing_rows chunks :
  to_refresh existing_rows chunks
  = filter (spec_needs_refresh existing_rows) chunks.
Proof.
  unfold to_refresh. apply list_filter_iff. intros chunk.
  unfold spec_needs_refresh.
  destruct (existing_rows !! chunk_id chunk) as [recorded|]; split.
  - intros Hne. right. exists recorded. split; [done|congruence].
  - intros [?|(? & [= <-] & ?)]; congruence.
  - by left.
  - done.
Qed.

(** C5.  [to_delete] is the sorted, duplicate-free list of the previously
    known ids that no fresh chunk has; [to_refresh] is the fresh chunks, in
    their order, whose id is new or whose checksum differs from the recorded
    one; for the prior state {A: h1, B: h2} and the one fresh chunk A with
    checksum h1 they are ["B"] and []. *)
Theorem diff_classification existing_rows chunks :
  (Sorted String.le (to_delete existing_rows chunks)
   ∧ NoDup (to_delete existing_rows chunks)
   ∧ ∀ id, id ∈ to_delete existing_rows chunks
           ↔ id ∈ dom existing_rows ∧ id ∉ chunk_id <$> chunks)
  ∧ to_refresh existing_rows chunks
    = filter (spec_needs_refresh existing_rows) chunks
  ∧ ∀ src tpc bdy,
      let a := {| chunk_id := "A"; source := src; topic := tpc; body := bdy;
                  checksum := "h1" |} in
      let prior : gmap string string := {[ "A" := "h1"; "B" := "h2" ]} in
      to_delete prior [a] = ["B"] ∧ to_refresh prior [a] = [].
Proof.
  split; [split; [|split]|split].
  - apply (Sorted_merge_sort String.le).
  - unfold to_delete, sorted. rewrite merge_sort_Permutation.
    apply NoDup_elements.
  - apply elem_of_to_delete.
  - apply to_refresh_spec.
  - intros src tpc bdy a prior. split; by vm_compute.
Qed.

(** ** The state store *)

Lemma rows_dict_snoc rows r :
  rows_dict (rows ++ [r]) = <[r_id r := r_checksum r]> (rows_dict rows).
Proof. unfold rows_dict. by rewrite foldl_app. Qed.

Lemma dom_rows_dict rows :
  dom (rows_dict rows) = list_to_set (r_id <$> rows).
Proof.
  induction rows as [|r rows IH] using rev_ind; [set_solver|].
  rewrite rows_dict_snoc, dom_insert_L, IH, fmap_app, list_to_set_app_L.
  simpl. rewrite (right_id_L ∅ (∪)). apply (comm_L (∪)).
Qed.

Lemma rows_dict_lookup rows id h :
  NoDup (r_id <$> rows) →
  rows_dict rows !! id = Some h
  ↔ ∃ r, r ∈ rows ∧ r_id r = id ∧ r_checksum r = h.
Proof.
  induction rows as [|r rows IH] using rev_ind; intros Hnd.
  - split; [done|]. by intros (r & ?%elem_of_nil & _).
  - rewrite fmap_app in Hnd. apply NoDup_app in Hnd as (Hnd & Hfresh & _).
    rewrite rows_dict_snoc. destruct (decide (r_id r = id)) as [<-|Hne].
    + rewrite lookup_insert_eq. split.
      * intros [= <-]. exists r. split; [|done].
        apply elem_of_app. right. by apply list_elem_of_singleton.
      * intros (r' & [Hin| ->%list_elem_of_singleton]%elem_of_app & Hid & <-);
          [|done].
        exfalso. apply (Hfresh (r_id r)).
        -- rewrite <-Hid. by apply list_elem_of_fmap_2.
        -- by apply list_elem_of_singleton.
    + rewrite lookup_insert_ne by done. rewrite IH by done. split.
      * intros (r' & ? & ? & ?). exists r'. split; [|done].
        apply elem_of_app. by left.
      * intros (r' & [Hin| ->%list_elem_of_singleton]%elem_of_app & Hid & <-);
          [|done].
        by exists r'.
Qed.

Lemma rows_dict_chunk_rows now chunks :
  rows_dict (chunk_row now <$> chunks) = chunks_dict chunks.
Proof.
  unfold rows_dict, chunks_dict. generalize (∅ : gmap string string).
  induction chunks as [|c chunks IH]; intros d; [done|]. apply IH.
Qed.

Lemma r_id_chunk_rows now (chunks : list DocumentChunk) :
  r_id <$> (chunk_row now <$> chunks) = chunk_id <$> chunks.
Proof. rewrite <-list_fmap_compose. done. Qed.

(** [executemany] goes through exactly when no id comes twice. *)
Lemma executemany_spec rows params :
  NoDup (r_id <$> rows) →
  executemany rows params
  = if decide (NoDup (r_id <$> rows ++ params)) then Ok (rows ++ params)
    else Err IntegrityError.
Proof.
  revert rows. induction params as [|r params IH]; intros rows Hnd; simpl.
  - rewrite app_nil_r. by rewrite decide_True.
  - unfold sql_insert. destruct (decide (r_id r ∈ r_id <$> rows)) as [Hin|Hin].
    + simpl. rewrite decide_False; [done|].
      rewrite fmap_app, fmap_cons. intros (_ & Hfresh & _)%NoDup_app.
      apply (Hfresh _ Hin). by left.
    + simpl. rewrite IH.
      * rewrite <-app_assoc. done.
      * rewrite fmap_app. apply NoDup_app. split; [done|]. split.
        -- intros x Hx ->%list_elem_of_singleton. done.
        -- apply NoDup_singleton.
Qed.

(** [persist_sqlite] succeeds exactly on a chunk list without a repeated id;
    otherwise it raises and leaves the rows as they were. *)
Lemma persist_sqlite_spec db chunks now :
  persist_sqlite db chunks now
  = if decide (NoDup (chunk_id <$> chunks))
    then (Ok (), Table (chunk_row now <$> chunks))
    else (Err IntegrityError,
          Table (match db with Table rows => rows | _ => [] end)).
Proof.
  unfold persist_sqlite. rewrite executemany_spec by constructor.
  simpl. rewrite r_id_chunk_rows.
  by destruct (decide (NoDup (chunk_id <$> chunks))).
Qed.

Lemma persist_sqlite_dict db chunks now :
  load_existing_rows (persist_sqlite db chunks now).2
  = if decide (NoDup (chunk_id <$> chunks)) then chunks_dict chunks
    else load_existing_rows db.
Proof.
  rewrite persist_sqlite_spec.
  destruct (decide (NoDup (chunk_id <$> chunks))); simpl.
  - apply rows_dict_chunk_rows.
  - by destruct db.
Qed.

Lemma chunks_dict_lookup chunks id h :
  NoDup (chunk_id <$> chunks) →
  chunks_dict chunks !! id = Some h
  ↔ ∃ c, c ∈ chunks ∧ chunk_id c = id ∧ checksum c = h.
Proof.
  intros Hnd. rewrite <-(rows_dict_chunk_rows "").
  rewrite rows_dict_lookup by (by rewrite r_id_chunk_rows). split.
  - intros (r & (c & -> & Hc)%list_elem_of_fmap & Hid & Hh). by exists c.
  - intros (c & Hc & Hid & Hh). exists (chunk_row "" c).
    split; [by apply list_elem_of_fmap_2|done].
Qed.

(** C6.  When [persist_sqlite] completes, the table holds one row per chunk
    of the current list and nothing of what it held before, and the mapping
    [load_existing_rows] reads back from it is the mapping of the current
    chunk list: the same ids, each with the checksum of its chunk. *)
Theorem persist_round_trip db chunks now db' :
  persist_sqlite db chunks now = (Ok (), db') →
  db' = Table (chunk_row now <$> chunks)
  ∧ load_existing_rows db' = chunks_dict chunks
  ∧ dom (load_existing_rows db') = list_to_set (chunk_id <$> chunks)
  ∧ ∀ id h, load_existing_rows db' !! id = Some h
            ↔ ∃ c, c ∈ chunks ∧ chunk_id c = id ∧ checksum c = h.
Proof.
  rewrite persist_sqlite_spec.
  destruct (decide (NoDup (chunk_id <$> chunks))) as [Hnd|]; [|done].
  intros [= <-]. simpl. split; [done|].
  rewrite rows_dict_chunk_rows. split; [done|]. split.
  - rewrite <-(rows_dict_chunk_rows now), dom_rows_dict.
    by rewrite r_id_chunk_rows.
  - intros id h. by apply chunks_dict_lookup.
Qed.

Lemma persist_round_trip_witness :
  load_existing_rows (Table (chunk_row "2024-01-01" <$> sample_chunks))
  = chunks_dict sample_chunks.
Proof.
  apply (persist_round_trip NoTable sample_chunks "2024-01-01"
           (Table (chunk_row "2024-01-01" <$> sample_chunks))).
  by vm_compute.
Defined.

(** ** The chunk set *)

Global Instance path_le_total : Total path_le.
Proof. intros f g. apply (total String.le). Qed.

Global Instance path_le_trans : Transitive path_le.
Proof. intros f g h. unfold path_le. apply transitivity. Qed.

(** Sorting forgets the order in which the directory was enumerated. *)
Lemma sorted_paths_enumeration (dir : gmap string file_content) l1 l2 :
  l1 ⊆+ map_to_list dir → l1 ≡ₚ l2 → sorted_paths l1 = sorted_paths l2.
Proof.
  intros Hsub Hperm. unfold sorted_paths.
  apply (Sorted_unique_strong path_le).
  - intros [n1 c1] [n2 c2] H1 H2 Hle Hge.
    rewrite merge_sort_Permutation in H1, H2. rewrite <-Hperm in H2.
    assert (n1 = n2) as <-.
    { apply (anti_symm String.le); [exact Hle|exact Hge]. }
    f_equal. apply (map_to_list_unique dir n1).
    + by apply (elem_of_submseteq l1).
    + by apply (elem_of_submseteq l1).
  - apply (Sorted_merge_sort path_le).
  - apply (Sorted_merge_sort path_le).
  - by rewrite !merge_sort_Permutation.
Qed.

(** C10.  The chunk list depends on the contents of the directory only, not
    on the order the file system enumerates it in: for a directory given as
    a map from file names to contents, every two enumerations of it give the
    same outcome of [build_chunks], chunk for chunk and in the same order.
    ([build_chunks] reads nothing else: no clock, no environment.) *)
Theorem build_chunks_enumeration_independent {lib : Library}
    (dir : gmap string file_content) (l1 l2 : listing) fuel cs ov :
  l1 ≡ₚ map_to_list dir → l2 ≡ₚ map_to_list dir →
  build_chunks fuel (Some l1) cs ov = build_chunks fuel (Some l2) cs ov.
Proof.
  intros H1 H2. unfold build_chunks. f_equal.
  apply (sorted_paths_enumeration dir).
  - unfold glob_json. etrans; [apply sublist_submseteq, sublist_filter|].
    by rewrite H1.
  - unfold glob_json. by rewrite H1, H2.
Qed.

Lemma build_chunks_enumeration_independent_witness :
  build_chunks (lib := sample_library) 5
    (Some (map_to_list sample_dir)) 900 150
  = build_chunks (lib := sample_library) 5
      (Some (reverse (map_to_list sample_dir))) 900 150.
Proof.
  apply (build_chunks_enumeration_independent (lib := sample_library)
           sample_dir); [done|apply reverse_Permutation].
Defined.

Example build_chunks_sample :
  chunk_id <$> default [] (match build_chunks (lib := sample_library) 5
                             (Some (map_to_list sample_dir)) 900 150 with
                           | Ok chunks => Some chunks
                           | _ => None
                           end)
  = ["about-all:1"; "faq-what-is-x:1"].
Proof. by vm_compute. Qed.

(** A text of a list or object entry starts with the S of "Source". *)
Lemma document_text_head source topic body :
  ∃ s', document_text source topic body = String "S" s'.
Proof. apply (strip_by_keeps_head isspace "S"). done. Qed.

(** Cut with sizes that let the loop end, a text that starts with a visible
    character gives at least one chunk. *)
Lemma split_text_first_chunk c s' cs ov :
  isspace c = false → 0 < cs → ov < cs →
  ∃ piece pieces,
    split_text (S (String.length (String c s'))) (String c s') cs ov
    = Some (piece :: pieces).
Proof.
  intros Hc Hcs Hov. set (text := String c s').
  rewrite split_text_windows.
  destruct (py_len text <=? cs) eqn:Hlen; [by eexists _, _|].
  assert (cs < py_len text) as Hlt by lia.
  cbn [split_windows]. replace (0 <? py_len text) with true by lia.
  replace (cs >=? py_len text) with false by lia.
  destruct (split_windows_terminates (String.length text) (py_len text) cs ov
              (Z.max 0 (cs - ov)) (Z.min (py_len text) (Z.max 0 (cs - ov) + cs)))
    as [ws ->]; [done|unfold py_len in *; lia|].
  simpl. unfold windows_chunks. rewrite fmap_cons.
  assert (∃ s1, window_chunk text (0, cs) = String c s1) as [s1 Hs1].
  { unfold window_chunk, slice, slice_bound. simpl fst. simpl snd.
    replace (0 <? 0) with false by done.
    replace (cs <? 0) with false by lia.
    replace (Z.to_nat (Z.min 0 (py_len text))) with 0%nat by lia.
    destruct (Z.to_nat (Z.min cs (py_len text) - Z.min 0 (py_len text)))
      as [|k] eqn:Hk; [lia|].
    unfold text. cbn [substring]. by apply strip_by_keeps_head. }
  rewrite filter_cons_True by (by rewrite Hs1).
  by eexists _, _.
Qed.

Section DuplicateIds.
Context {lib : Library}.

Lemma document_chunks_first fuel name cs ov base_id topic text piece pieces :
  split_text fuel text cs ov = Some (piece :: pieces) →
  ∃ c cs',
    document_chunks fuel name cs ov (base_id, topic, text) = Ok (c :: cs')
    ∧ chunk_id c = base_id +:+ ":1".
Proof.
  intros Hsplit. unfold document_chunks. rewrite Hsplit.
  eexists _, _. split; [done|]. done.
Qed.

(** C3 (the code departs from it).  Two entries of one list with the same
    title get the same [base_id], and so do their chunks: on the file
    faq.json holding two entries titled "A", [build_chunks] ends with a
    chunk list in which the id "faq-a:1" comes twice.  [persist_sqlite]
    then fails on the primary key. *)
Theorem build_chunks_repeats_chunk_id :
  ∃ fuel chunks,
    build_chunks fuel (Some faq_same_title) 900 150 = Ok chunks
    ∧ (∃ i j, i ≠ j ∧ (chunk_id <$> chunks) !! i = Some "faq-a:1"
              ∧ (chunk_id <$> chunks) !! j = Some "faq-a:1")
    ∧ ¬ NoDup (chunk_id <$> chunks)
    ∧ ∀ db now, (persist_sqlite db chunks now).1 = Err IntegrityError.
Proof.
  set (entry := JDict [("title", JStr "A")]).
  set (text := document_text "faq" "A" (render_body entry)).
  destruct (document_text_head "faq" "A" (render_body entry)) as [s' Hs'].
  destruct (split_text_first_chunk "S" s' 900 150) as (piece & pieces & Hp);
    [done|lia|lia|].
  rewrite <-Hs' in Hp. fold text in Hp.
  set (fuel := S (String.length text)) in Hp.
  destruct (document_chunks_first fuel "faq.json" 900 150 "faq-a" "A" text
              piece pieces Hp) as (c & cs' & Hdoc & Hid).
  exists fuel, ((c :: cs') ++ c :: cs').
  assert (build_chunks fuel (Some faq_same_title) 900 150
          = Ok ((c :: cs') ++ c :: cs')) as Hbuild.
  { unfold build_chunks, faq_same_title.
    change (sorted_paths (glob_json ?l)) with l.
    cbn [files_chunks file_chunks snd fst].
    change (generate_documents _ _)
      with [("faq-a", "A", text); ("faq-a", "A", text)].
    cbn [documents_chunks]. rewrite Hdoc.
    cbn [mbind res_bind mret res_ret]. by rewrite !app_nil_r. }
  assert ((chunk_id <$> (c :: cs') ++ c :: cs') !! 0%nat = Some "faq-a:1")
    as H0 by (simpl; by rewrite Hid).
  assert ((chunk_id <$> (c :: cs') ++ c :: cs') !! length (c :: cs')
          = Some "faq-a:1") as H1.
  { rewrite fmap_app, lookup_app_r by (by rewrite length_fmap).
    rewrite length_fmap, Nat.sub_diag. simpl. by rewrite Hid. }
  assert (¬ NoDup (chunk_id <$> (c :: cs') ++ c :: cs')) as Hdup.
  { intros Hnd. by pose proof (NoDup_lookup _ _ _ _ Hnd H0 H1). }
  split; [done|]. split; [by exists 0%nat, (length (c :: cs'))|].
  split; [done|]. intros db now. rewrite persist_sqlite_spec.
  by rewrite decide_False.
Qed.
End DuplicateIds.

(** ** The run *)

Section Run.
Context {lib : Library} {svc : Services}.

Lemma main_steps fuel args env w :
  main fuel args env w
  = match config_error args env with
    | Some msg => (Err (SystemExit msg), w)
    | None => run fuel args env w
    end.
Proof.
  unfold main, config_error, run, remote_sync.
  destruct (truthy_opt (OPENAI_API_KEY env)), (skip_pinecone args),
    (truthy_opt (PINECONE_API_KEY env)), (truthy_opt (pinecone_host args));
    try reflexivity.
Qed.
End Run.

Example main_sample_first_run :
  let w' := (main (lib := sample_library) 5 sample_args sample_env
               (sample_world 200)).2 in
  length (w_http w') = 2%nat
  ∧ load_existing_rows (w_sqlite w')
    = {[ "about-all:1" := "sha256 of Source: about" +:+ nl +:+ nl +:+ "hello";
         "faq-what-is-x:1" :=
           "sha256 of Source: faq" +:+ nl +:+ "Topic: What is X?"
           +:+ nl +:+ nl +:+ "{}" ]}.
Proof. split; by vm_compute. Qed.

(** ** What the remote steps do to the world *)

Section Effects.
Context {lib : Library} {svc : Services}.

Implicit Types (w : World) (new : list (request vector * response vector)).

Lemma remote_step_ret {A} φ (a : A) : remote_step φ (ret a).
Proof.
  intros w. exists []. unfold adds, ret. simpl. rewrite app_nil_r.
  repeat split; by try left.
Qed.

Lemma remote_step_raise {A} φ e : remote_step φ (raise e : M A).
Proof.
  intros w. exists []. unfold adds, raise. simpl. rewrite app_nil_r.
  repeat split; by try left.
Qed.

Lemma remote_step_lift {A} φ (r : res A) : remote_step φ (lift r).
Proof.
  intros w. exists []. unfold adds, lift. simpl. rewrite app_nil_r.
  repeat split; by try left.
Qed.

(** Sequencing: the second step runs on the world the first one left, when
    the first one returned. *)
Lemma remote_step_bind {A B} φ (m : M A) (k : A → M B) :
  remote_step φ m → (∀ a, remote_step φ (k a)) → remote_step φ (bind m k).
Proof.
  intros Hm Hk w.
  destruct (Hm w) as (new1 & (Hd & Hs & Hn & Hh) & Hff & Hφ).
  unfold adds, bind. destruct (m w) as [[a|e|] w1]; simpl in *.
  - destruct (Hk a w1) as (new2 & (Hd2 & Hs2 & Hn2 & Hh2) & Hff2 & Hφ2).
    exists (new1 ++ new2). split; [|split].
    + rewrite Hd2, Hs2, Hn2, Hh2, Hd, Hs, Hn, Hh. by rewrite app_assoc.
    + destruct Hff as [Hok|[msg [=]]].
      destruct Hff2 as [Hok2|Hexit]; [left|by right].
      by apply Forall_app.
    + by apply Forall_app.
  - exists new1. split; [done|]. split; [|done].
    destruct Hff as [Hok|[msg [= ->]]]; [by left|right; by eexists].
  - exists new1. split; [done|]. split; [|done].
    destruct Hff as [Hok|[msg [=]]]. by left.
Qed.

(** One [requests.post] with the status check that follows it. *)
Lemma remote_step_post {A} φ rq msg (k : response vector → M A) :
  (∀ rs, φ (rq, rs)) → (∀ rs, remote_step φ (k rs)) →
  remote_step φ
    (bind (post rq) (λ response,
       if status_code response >=? 300 then raise (SystemExit msg)
       else k response)).
Proof.
  intros Hrq Hk w. unfold adds, bind, post.
  destruct (requests_post (w_remote w) rq) as [rem rs]. simpl.
  destruct (status_code rs >=? 300) eqn:Hstatus.
  - exists [(rq, rs)]. unfold raise. simpl.
    split; [done|]. split; [right; by eexists|]. by constructor.
  - match goal with |- context [k rs ?w1] => set (w1' := w1) end.
    destruct (Hk rs w1') as (new & (Hd & Hs & Hn & Hh) & Hff & Hφ).
    exists ((rq, rs) :: new). split; [|split].
    + rewrite Hd, Hs, Hn, Hh. unfold w1'. simpl.
      by rewrite <-app_assoc.
    + destruct Hff as [Hok|Hexit]; [left|by right].
      constructor; [simpl; lia|done].
    + by constructor.
Qed.
End Effects.

(** ** Batches *)

Lemma range_step_bounds stop step start :
  0 < step → start ∈ range_step stop step → 0 ≤ start < stop.
Proof.
  intros Hstep (k & -> & Hk)%list_elem_of_fmap.
  apply elem_of_seqZ in Hk.
  pose proof (Z.mul_div_le (stop + step - 1) step Hstep). nia.
Qed.

(** Every batch of [chunked] holds at least one element and at most [size]. *)
Lemma chunked_batches {A} (sequence : list A) size batches :
  chunked sequence size = Ok batches →
  Forall (λ batch : list A, (1 ≤ length batch)%nat
                            ∧ Z.of_nat (length batch) ≤ size) batches.
Proof.
  unfold chunked. destruct (size =? 0) eqn:H0; [done|].
  destruct (size <? 0) eqn:Hneg; intros [= <-]; [done|].
  apply Forall_fmap, Forall_forall. intros start Hstart.
  apply range_step_bounds in Hstart; [|lia]. simpl.
  rewrite length_take, length_drop. lia.
Qed.

Lemma range_step_cons stop step :
  0 < step → 0 < stop →
  range_step stop step
  = 0 :: ((λ start, start + step) <$> range_step (stop - step) step).
Proof.
  intros Hstep Hstop. unfold range_step.
  replace (stop + step - 1) with (stop - 1 + 1 * step) by lia.
  rewrite Z.div_add by lia.
  replace (stop - step + step - 1) with (stop - 1) by lia.
  pose proof (Z.div_pos (stop - 1) step).
  rewrite seqZ_cons by lia. rewrite fmap_cons. f_equal.
  replace (Z.pred ((stop - 1) `div` step + 1)) with ((stop - 1) `div` step)
    by lia.
  replace (Z.succ 0) with (1 + 0) by lia.
  rewrite <-fmap_add_seqZ, <-!list_fmap_compose.
  apply list_fmap_ext. intros _ k _. simpl. lia.
Qed.

Lemma range_step_nil stop step :
  0 < step → stop ≤ 0 → range_step stop step = [].
Proof.
  intros Hstep Hstop. unfold range_step. rewrite seqZ_nil; [done|].
  assert ((stop + step - 1) `div` step < 1); [|lia].
  apply Z.div_lt_upper_bound; lia.
Qed.

(** The batches of [chunked], one after the other, are the sequence. *)
Lemma chunked_concat {A} (sequence : list A) size batches :
  0 < size → chunked sequence size = Ok batches → concat batches = sequence.
Proof.
  intros Hsize. unfold chunked.
  replace (size =? 0) with false by lia. replace (size <? 0) with false by lia.
  intros [= <-]. remember (length sequence) as n eqn:Hn.
  revert sequence Hn. induction n as [n IH] using lt_wf_ind.
  intros sequence ->. destruct sequence as [|x sequence].
  { by rewrite range_step_nil. }
  rewrite range_step_cons by (simpl length; lia).
  rewrite fmap_cons, <-list_fmap_compose. simpl concat.
  etrans; [|apply (take_drop (Z.to_nat size))]. f_equal.
  etrans; [|apply (IH (length (drop (Z.to_nat size) (x :: sequence))));
            [rewrite length_drop; simpl; lia|done]].
  f_equal. rewrite length_drop. simpl length.
  destruct (decide (size ≤ Z.of_nat (S (length sequence)))) as [Hle|Hgt].
  - replace (Z.of_nat (S (length sequence) - Z.to_nat size))
      with (Z.of_nat (S (length sequence)) - size) by lia.
    apply Forall_fmap_ext_1, Forall_forall. intros start Hstart.
    apply range_step_bounds in Hstart; [|done]. simpl.
    rewrite drop_drop. do 2 f_equal. lia.
  - by rewrite !range_step_nil by lia.
Qed.

Example chunked_zero : chunked ["a"; "b"] 0 = Err ValueError.
Proof. reflexivity. Qed.

Example chunked_negative : chunked ["a"; "b"] (-2) = Ok [].
Proof. reflexivity. Qed.

Section Clients.
Context {lib : Library} {svc : Services}.

Lemma remote_step_weaken {A} (φ ψ : _ → Prop) (m : M A) :
  (∀ x, φ x → ψ x) → remote_step φ m → remote_step ψ m.
Proof.
  intros Himp Hm w. destruct (Hm w) as (new & ? & ? & Hφ).
  exists new. split; [done|]. split; [done|].
  eapply Forall_impl; [exact Hφ|done].
Qed.

Lemma embed_loop_step self batches vectors :
  remote_step any_exchange (embed_loop self batches vectors).
Proof.
  revert vectors. induction batches as [|batch batches IH]; intros vectors.
  - apply remote_step_ret.
  - apply (remote_step_post any_exchange); [done|]. intros rs.
    destruct (embeddings rs); [apply IH|apply remote_step_raise].
Qed.

Lemma embed_step self texts : remote_step any_exchange (embed self texts).
Proof.
  apply remote_step_bind; [apply remote_step_lift|].
  intros batches. apply embed_loop_step.
Qed.

Lemma upsert_loop_step self batches :
  Forall (λ batch : list (vector_record vector),
            (1 ≤ length batch)%nat
            ∧ Z.of_nat (length batch) ≤ pc_batch_size self) batches →
  remote_step (upsert_batch_of self) (upsert_loop self batches).
Proof.
  induction 1 as [|batch batches Hbatch _ IH].
  - apply remote_step_ret.
  - apply (remote_step_post (upsert_batch_of self)); [|done].
    intros rs. by exists batch.
Qed.

Lemma upsert_step self vectors :
  remote_step (upsert_batch_of self) (upsert self vectors).
Proof.
  intros w. unfold upsert, bind, lift.
  destruct (chunked vectors (pc_batch_size self)) as [batches|e|] eqn:Hc.
  - by apply upsert_loop_step, chunked_batches with vectors.
  - by apply (remote_step_raise _ e).
  - exists []. unfold adds. simpl. rewrite app_nil_r.
    repeat split; by try left.
Qed.

(** [delete] sends one request, with all the ids it was given. *)
Lemma delete_adds self ids w :
  ∃ rs, adds (delete self ids) w
          [(DeleteRequest ids (payload_namespace self), rs)]
        ∧ fail_fast (delete self ids w).1
            [(DeleteRequest ids (payload_namespace self), rs)].
Proof.
  unfold delete, adds, bind, post.
  destruct (requests_post (w_remote w) _) as [rem rs]. simpl.
  exists rs. destruct (status_code rs >=? 300) eqn:Hstatus; simpl.
  - split; [done|]. right. by eexists.
  - split; [done|]. left. constructor; [simpl; lia|done].
Qed.

Lemma delete_step self ids : remote_step any_exchange (delete self ids).
Proof.
  intros w. destruct (delete_adds self ids w) as (rs & ? & ?).
  eexists. split; [done|]. split; [done|]. by constructor.
Qed.

Lemma upsert_chunks_step pinecone embeddings chunks :
  remote_step any_exchange (upsert_chunks pinecone embeddings chunks).
Proof.
  unfold upsert_chunks.
  destruct chunks as [|c chunks]; [apply remote_step_ret|].
  destruct embeddings as [client|]; [|apply remote_step_ret].
  apply remote_step_bind; [apply embed_step|]. intros vectors.
  eapply remote_step_weaken; [|apply upsert_step]. done.
Qed.

Lemma remote_sync_step args env to_refresh to_delete :
  remote_step any_exchange (remote_sync args env to_refresh to_delete).
Proof.
  unfold remote_sync. destruct (skip_pinecone args); [apply remote_step_ret|].
  apply remote_step_bind; [apply upsert_chunks_step|]. intros _.
  destruct to_delete; [apply remote_step_ret|apply delete_step].
Qed.

(** With nothing to refresh and nothing to delete, nothing is sent. *)
Lemma remote_sync_idle args env w :
  remote_sync args env [] [] w = (Ok (), w).
Proof. unfold remote_sync. by destruct (skip_pinecone args). Qed.
End Clients.

(** ** Whole runs *)

Lemma filter_none {A} (P : A → Prop) `{∀ x, Decision (P x)} (l : list A) :
  Forall (λ x, ¬ P x) l → filter P l = [].
Proof.
  induction 1 as [|x l Hx _ IH]; [done|]. by rewrite filter_cons_False.
Qed.

Lemma dom_chunks_dict chunks :
  dom (chunks_dict chunks) = list_to_set (chunk_id <$> chunks).
Proof.
  by rewrite <-(rows_dict_chunk_rows ""), dom_rows_dict, r_id_chunk_rows.
Qed.

(** Against its own mapping a chunk list without repeated ids has nothing to
    delete and nothing to refresh. *)
Lemma diff_of_own_dict chunks :
  NoDup (chunk_id <$> chunks) →
  to_delete (chunks_dict chunks) chunks = []
  ∧ to_refresh (chunks_dict chunks) chunks = [].
Proof.
  intros Hnd. split.
  - unfold to_delete. rewrite dom_chunks_dict.
    by rewrite difference_diag_L, elements_empty.
  - unfold to_refresh. apply filter_none, Forall_forall.
    intros c Hc Hne. apply Hne. apply chunks_dict_lookup; [done|by exists c].
Qed.

Section Runs.
Context {lib : Library} {svc : Services}.

Implicit Types (w : World).

Lemma persist_adds chunks w :
  w_http (persist chunks w).2 = w_http w
  ∧ w_remote (persist chunks w).2 = w_remote w
  ∧ w_data_dir (persist chunks w).2 = w_data_dir w
  ∧ ((persist chunks w).1, w_sqlite (persist chunks w).2)
    = persist_sqlite (w_sqlite w) chunks (w_now w).
Proof.
  unfold persist. by destruct (persist_sqlite _ _ _) as [r db].
Qed.

(** A run adds exchanges to the log; either they all succeeded, or the run
    ended in [SystemExit] with the store as it was. *)
Lemma main_effect fuel args env w :
  ∃ new,
    w_http (main fuel args env w).2 = w_http w ++ new
    ∧ (Forall (λ x, status_code x.2 < 300) new
       ∨ (∃ msg, (main fuel args env w).1 = Err (SystemExit msg))
         ∧ w_sqlite (main fuel args env w).2 = w_sqlite w).
Proof.
  rewrite main_steps. destruct (config_error args env) as [msg|].
  { exists []. simpl. rewrite app_nil_r. split; [done|]. by left. }
  unfold run, bind, lift.
  destruct (build_chunks fuel _ _ _) as [chunks|e|]; cbv beta iota;
    [|exists []; rewrite app_nil_r; split; [done|by left]..].
  destruct (remote_sync_step args env
              (to_refresh (load_existing_rows (w_sqlite w)) chunks)
              (to_delete (load_existing_rows (w_sqlite w)) chunks) w)
    as (new & (Hd & Hs & Hn & Hh) & Hff & _).
  exists new. revert Hd Hs Hn Hh Hff.
  generalize (remote_sync args env
                (to_refresh (load_existing_rows (w_sqlite w)) chunks)
                (to_delete (load_existing_rows (w_sqlite w)) chunks) w).
  intros [[[]|e|] w1]; simpl; intros Hd Hs Hn Hh Hff.
  - destruct (persist_adds chunks w1) as (Hh' & _).
    rewrite Hh', Hh. split; [done|]. left.
    by destruct Hff as [Hok|[msg [=]]].
  - split; [done|]. destruct Hff as [Hok|[msg [= ->]]]; [by left|].
    right. split; [by eexists|done].
  - split; [done|]. left. by destruct Hff as [Hok|[msg [=]]].
Qed.

(** A run that ends well has built its chunks, and its store is what
    [persist_sqlite] makes of the store it started with. *)
Lemma main_ok fuel args env w w' :
  main fuel args env w = (Ok (), w') →
  ∃ chunks,
    build_chunks fuel (w_data_dir w) (chunk_size args) (chunk_overlap args)
    = Ok chunks
    ∧ persist_sqlite (w_sqlite w) chunks (w_now w) = (Ok (), w_sqlite w').
Proof.
  rewrite main_steps. destruct (config_error args env) as [msg|]; [done|].
  unfold run, bind, lift.
  destruct (build_chunks fuel _ _ _) as [chunks|e|]; cbv beta iota;
    [|done..].
  destruct (remote_sync_step args env
              (to_refresh (load_existing_rows (w_sqlite w)) chunks)
              (to_delete (load_existing_rows (w_sqlite w)) chunks) w)
    as (new & (Hd & Hs & Hn & Hh) & _).
  revert Hd Hs Hn Hh.
  generalize (remote_sync args env
                (to_refresh (load_existing_rows (w_sqlite w)) chunks)
                (to_delete (load_existing_rows (w_sqlite w)) chunks) w).
  intros [[[]|e|] w1]; simpl; intros Hd Hs Hn Hh; [|done..].
  intros Hp. exists chunks. split; [done|].
  destruct (persist_adds chunks w1) as (_ & _ & _ & Hps).
  rewrite Hp in Hps. simpl in Hps. by rewrite <-Hs, <-Hn.
Qed.

(** A run with nothing to refresh and nothing to delete sends nothing. *)
Lemma main_idle fuel args env w chunks :
  build_chunks fuel (w_data_dir w) (chunk_size args) (chunk_overlap args)
  = Ok chunks →
  to_refresh (load_existing_rows (w_sqlite w)) chunks = [] →
  to_delete (load_existing_rows (w_sqlite w)) chunks = [] →
  w_http (main fuel args env w).2 = w_http w
  ∧ w_remote (main fuel args env w).2 = w_remote w.
Proof.
  intros Hb Hr Hd. rewrite main_steps.
  destruct (config_error args env) as [msg|]; [done|].
  unfold run, bind, lift. rewrite Hb. cbv beta iota.
  rewrite Hr, Hd, remote_sync_idle.
  by destruct (persist_adds chunks w) as (? & ? & _).
Qed.
End Runs.

Section Claims.
Context {lib : Library} {svc : Services}.

(** C1.  When a run has ended well, so that the store was rewritten to its
    chunk set, a second run on the same documents with the same chunk
    sizes, whatever its other options, its environment and the state of
    the services, builds the same chunks, finds nothing to refresh and
    nothing to delete against the store the first run left, and sends no
    request. *)
Theorem second_run_sends_nothing fuel args env (w w' : World) :
  main fuel args env w = (Ok (), w') →
  ∀ args2 env2 (w2 : World),
    chunk_size args2 = chunk_size args →
    chunk_overlap args2 = chunk_overlap args →
    w_data_dir w2 = w_data_dir w →
    w_sqlite w2 = w_sqlite w' →
    ∃ chunks,
      build_chunks fuel (w_data_dir w2) (chunk_size args2)
        (chunk_overlap args2) = Ok chunks
      ∧ to_refresh (load_existing_rows (w_sqlite w2)) chunks = []
      ∧ to_delete (load_existing_rows (w_sqlite w2)) chunks = []
      ∧ w_http (main fuel args2 env2 w2).2 = w_http w2
      ∧ w_remote (main fuel args2 env2 w2).2 = w_remote w2.
Proof.
  intros (chunks & Hb & Hp)%main_ok args2 env2 w2 Hcs Hov Hdir Hdb.
  exists chunks. rewrite persist_sqlite_spec in Hp.
  destruct (decide (NoDup (chunk_id <$> chunks))) as [Hnd|]; [|done].
  injection Hp as Hw'.
  assert (load_existing_rows (w_sqlite w2) = chunks_dict chunks) as Hload.
  { rewrite Hdb, <-Hw'. apply rows_dict_chunk_rows. }
  assert (build_chunks fuel (w_data_dir w2) (chunk_size args2)
            (chunk_overlap args2) = Ok chunks) as Hb2
    by (by rewrite Hcs, Hov, Hdir).
  destruct (diff_of_own_dict chunks Hnd) as [Hdel Href].
  rewrite Hload. split; [done|]. split; [done|]. split; [done|].
  apply (main_idle fuel args2 env2 w2 chunks); by rewrite ?Hload.
Qed.

(** C2.  In a run in which a request comes back with a status of 300 or
    more, the run ends in [SystemExit] and the store is what it was before
    the run; so a store that the run changed was written after every
    request of the run had succeeded. *)
Theorem failed_request_keeps_store fuel args env (w w' : World) r :
  w_http w = [] →
  main fuel args env w = (r, w') →
  (Exists (λ x, 300 ≤ status_code x.2) (w_http w') →
   (∃ msg, r = Err (SystemExit msg)) ∧ w_sqlite w' = w_sqlite w)
  ∧ (w_sqlite w' ≠ w_sqlite w →
     Forall (λ x, status_code x.2 < 300) (w_http w')).
Proof.
  intros Hlog Hmain.
  destruct (main_effect fuel args env w) as (new & Hh & Hcases).
  rewrite Hmain, Hlog in *. simpl in *. rewrite Hh. split.
  - intros Hbad. destruct Hcases as [Hok|Hexit]; [|done].
    apply Exists_exists in Hbad as (x & Hx & Hcode).
    rewrite Forall_forall in Hok. specialize (Hok x Hx). lia.
  - intros Hchanged. by destruct Hcases as [Hok|[_ Hsame]].
Qed.

(** C9 (amended).  [upsert] sends its records in batches: each upsert
    request carries at least one and at most [batch_size] records (and none
    is sent when [batch_size] is not positive).  [delete] does not batch:
    it sends one request that carries all the ids it was given. *)
Theorem index_client_requests (self : PineconeClient) (w : World) :
  (∀ vectors, ∃ new,
     w_http (upsert self vectors w).2 = w_http w ++ new
     ∧ Forall (λ x, ∃ batch namespace,
                 x.1 = UpsertRequest batch namespace
                 ∧ (1 ≤ length batch)%nat
                 ∧ Z.of_nat (length batch) ≤ pc_batch_size self) new)
  ∧ (∀ ids, ∃ rs,
       w_http (delete self ids w).2
       = w_http w ++ [(DeleteRequest ids (payload_namespace self), rs)]).
Proof.
  split.
  - intros vectors.
    destruct (upsert_step self vectors w) as (new & (_ & _ & _ & Hh) & _ & Hφ).
    exists new. split; [done|]. eapply Forall_impl; [exact Hφ|].
    intros x (batch & ? & ? & ?). by exists batch, (payload_namespace self).
  - intros ids. destruct (delete_adds self ids w) as (rs & (_ & _ & _ & Hh) & _).
    by exists rs.
Qed.
End Claims.

Lemma second_run_sends_nothing_witness :
  w_http (main (lib := sample_library) 5 sample_args sample_env
            sample_again).2 = [].
Proof.
  destruct (second_run_sends_nothing (lib := sample_library) 5 sample_args
              sample_env (sample_world 200) (sample_after 200)
              ltac:(by vm_compute) sample_args sample_env sample_again
              eq_refl eq_refl eq_refl eq_refl)
    as (chunks & _ & _ & _ & Hlog & _).
  exact Hlog.
Defined.

Lemma failed_request_keeps_store_witness :
  (∃ msg, (main (lib := sample_library) 5 sample_args sample_env
             (sample_world 500)).1 = Err (SystemExit msg))
  ∧ w_sqlite (sample_after 500) = NoFile.
Proof.
  apply (proj1 (failed_request_keeps_store (lib := sample_library) 5
                  sample_args sample_env (sample_world 500)
                  (sample_after 500) _ eq_refl ltac:(by vm_compute))).
  apply Exists_exists. eexists. split; [vm_compute; left|by vm_compute].
Defined.

(** C9, as stated, fails for [delete]: whatever the bound, a list of more
    ids than the bound goes out in a single delete request. *)
Lemma delete_request_grows_with_input :
  ¬ ∃ bound : nat, ∀ ids : list string,
      Forall (λ x, (ids_carried x.1 ≤ bound)%nat)
        (w_http (delete (svc := answering 200)
                   (make_pinecone sample_args sample_env) ids
                   (sample_world 200)).2).
Proof.
  intros [bound Hbound]. specialize (Hbound (replicate (S bound) "id")).
  destruct (delete_adds (svc := answering 200)
              (make_pinecone sample_args sample_env)
              (replicate (S bound) "id") (sample_world 200))
    as (rs & (_ & _ & _ & Hh) & _).
  rewrite Hh in Hbound. apply Forall_app in Hbound as [_ Hbound].
  apply Forall_cons in Hbound as [Hbound _]. simpl in Hbound.
  rewrite length_replicate in Hbound. lia.
Qed.

(** * Further properties of the script *)

(** ** The chunker: sizes and coverage *)

Lemma string_length_app (a b : string) :
  String.length (a +:+ b) = (String.length a + String.length b)%nat.
Proof.
  induction a as [|x a IH]; [done|].
  change (S (String.length (a +:+ b)) = S (String.length a + String.length b)).
  by rewrite IH.
Qed.

Lemma substring_of_length s text : substring_of s text → py_len s ≤ py_len text.
Proof.
  intros (pre & post & ->). unfold py_len. rewrite !string_length_app. lia.
Qed.

Lemma length_substring_le n m s : (String.length (substring n m s) ≤ m)%nat.
Proof.
  revert n m. induction s as [|c s IH]; intros [|n] [|m]; simpl; try lia.
  - specialize (IH 0%nat m). lia.
  - apply IH.
  - apply IH.
Qed.

Lemma py_len_slice_le text a b :
  0 ≤ a → 0 ≤ b → py_len (slice text a b) ≤ Z.max 0 (b - a).
Proof.
  intros Ha Hb. unfold slice, slice_bound.
  replace (a <? 0) with false by lia. replace (b <? 0) with false by lia.
  pose proof (length_substring_le
                (Z.to_nat (Z.min a (py_len text)))
                (Z.to_nat (Z.min b (py_len text) - Z.min a (py_len text)))
                text).
  unfold py_len in *. lia.
Qed.

(** Every window starts at or after 0 and is at most [chunk_size] wide. *)
Lemma split_windows_width fuel len cs ov start end_ ws :
  0 < cs → 0 ≤ len → 0 ≤ start → 0 ≤ end_ ≤ start + cs →
  split_windows fuel len cs ov start end_ = Some ws →
  Forall (λ w, 0 ≤ w.1 ∧ 0 ≤ w.2 ≤ w.1 + cs) ws.
Proof.
  intros Hcs Hlen. revert start end_ ws.
  induction fuel as [|fuel IH]; intros start end_ ws Hstart Hend; [done|].
  simpl. destruct (start <? len); [|by intros [= <-]].
  destruct (end_ >=? len).
  - intros [= <-]. constructor; [simpl; lia|done].
  - destruct (split_windows fuel _ _ _ _ _) as [ws'|] eqn:Hrec; [|done].
    simpl. intros [= <-]. constructor; [simpl; lia|].
    apply IH in Hrec; [done|lia..].
Qed.

(** X1.  With a positive [chunk_size], no chunk that [split_text] returns is
    longer than [chunk_size], whatever the overlap. *)
Theorem split_text_chunk_length fuel text cs ov chunks :
  0 < cs → split_text fuel text cs ov = Some chunks →
  Forall (λ c, py_len c ≤ cs) chunks.
Proof.
  intros Hcs. rewrite split_text_windows.
  destruct (py_len text <=? cs) eqn:Hlen.
  - intros [= <-]. constructor; [|done].
    pose proof (substring_of_length _ _ (strip_by_substring isspace text)).
    unfold strip. lia.
  - destruct (split_windows fuel _ _ _ _ _) as [ws|] eqn:Hws; [|done].
    simpl. intros [= <-].
    apply split_windows_width in Hws; [|unfold py_len; lia..].
    unfold windows_chunks. apply Forall_forall.
    intros c [_ (w & -> & Hw)%list_elem_of_fmap]%list_elem_of_filter.
    rewrite Forall_forall in Hws. specialize (Hws w Hw).
    unfold window_chunk.
    pose proof (substring_of_length _ _
                  (strip_by_substring isspace (slice text w.1 w.2))).
    pose proof (py_len_slice_le text w.1 w.2). unfold strip. lia.
Qed.

Lemma split_text_chunk_length_witness :
  Forall (λ c, py_len c ≤ 4) ["abcd"; "defg"; "ghij"].
Proof.
  apply (split_text_chunk_length 5 "abcdefghij" 4 1); [lia|reflexivity].
Defined.

(** X2.  With [0 ≤ overlap < chunk_size], the windows of a text longer than
    [chunk_size] leave no gap: every character position of the text lies in
    one of them. *)
Theorem split_windows_cover fuel len cs ov ws :
  0 ≤ ov < cs → cs < len →
  split_windows fuel len cs ov 0 cs = Some ws →
  ∀ pos, 0 ≤ pos < len → ∃ w, w ∈ ws ∧ w.1 ≤ pos < w.2.
Proof.
  intros Hov Hlen Hws pos Hpos.
  assert (∀ start end_ ws,
            0 ≤ start ≤ pos → start < end_ →
            split_windows fuel len cs ov start end_ = Some ws →
            ∃ w, w ∈ ws ∧ w.1 ≤ pos < w.2) as Hgen; [|by apply (Hgen 0 cs); [lia..|]].
  clear ws Hws. induction fuel as [|fuel IH]; intros start end_ ws Hs He; [done|].
  simpl. replace (start <? len) with true by lia.
  destruct (end_ >=? len) eqn:Hge.
  - intros [= <-]. exists (start, end_). split; [by left|simpl; lia].
  - destruct (split_windows fuel _ _ _ _ _) as [ws'|] eqn:Hrec; [|done].
    simpl. intros [= <-]. destruct (decide (pos < end_)) as [Hin|Hout].
    + exists (start, end_). split; [by left|simpl; lia].
    + apply IH in Hrec as (w & Hw & Hpw); [|lia..].
      exists w. split; [by right|done].
Qed.

Lemma split_windows_cover_witness :
  ∃ w, w ∈ [(0, 900); (750, 1650); (1500, 2000)] ∧ w.1 ≤ 1700 < w.2.
Proof.
  apply (split_windows_cover 3 2000 900 150); [lia|lia|reflexivity|lia].
Defined.

Lemma split_windows_head fuel len cs ov start end_ w ws :
  split_windows fuel len cs ov start end_ = Some (w :: ws) → w = (start, end_).
Proof.
  destruct fuel as [|fuel]; [done|]. simpl.
  destruct (start <? len); [|done].
  destruct (end_ >=? len); [by intros [= <- _]|].
  destruct (split_windows fuel _ _ _ _ _); [|done]. by intros [= <- _].
Qed.

(** X3.  With [0 ≤ overlap < chunk_size], every window but the last is
    exactly [chunk_size] wide, and the next window starts exactly [overlap]
    characters before its end. *)
Theorem split_windows_overlap fuel len cs ov ws i w1 w2 :
  0 ≤ ov < cs →
  split_windows fuel len cs ov 0 cs = Some ws →
  ws !! i = Some w1 → ws !! S i = Some w2 →
  w1.2 = w1.1 + cs ∧ w2.1 = w1.2 - ov.
Proof.
  intros Hov.
  assert (∀ start end_ ws i,
            0 ≤ start → end_ = Z.min len (start + cs) ∨ start = 0 ∧ end_ = cs →
            split_windows fuel len cs ov start end_ = Some ws →
            ws !! i = Some w1 → ws !! S i = Some w2 →
            w1.2 = w1.1 + cs ∧ w2.1 = w1.2 - ov) as Hgen;
    [|intros; apply (Hgen 0 cs ws i); by auto with lia].
  clear ws i. induction fuel as [|fuel IH]; intros start end_ ws i Hs He; [done|].
  simpl. destruct (start <? len); [|by intros [= <-]].
  destruct (end_ >=? len) eqn:Hge; [by intros [= <-]|].
  destruct (split_windows fuel _ _ _ _ _) as [ws'|] eqn:Hrec; [|done].
  simpl. intros [= <-]. destruct i as [|i]; simpl.
  - intros [= <-] Hw2. destruct ws' as [|w ws']; [done|].
    simpl in Hw2. injection Hw2 as ->.
    apply split_windows_head in Hrec as ->. simpl. lia.
  - intros Hw1 Hw2. eapply (IH _ _ ws' i); [|by left|exact Hrec|done..]. lia.
Qed.

Lemma split_windows_overlap_witness :
  (900 = 0 + 900 ∧ 750 = 900 - 150).
Proof.
  apply (split_windows_overlap 3 2000 900 150
           [(0, 900); (750, 1650); (1500, 2000)] 0 (0, 900) (750, 1650));
    [lia|reflexivity..].
Defined.

Lemma split_loop_stuck fuel text cs ov chunks :
  cs ≤ ov → cs < py_len text → 0 < py_len text →
  split_loop fuel text cs ov 0 cs chunks = None.
Proof.
  intros Hov Hlen Hpos. revert chunks.
  induction fuel as [|fuel IH]; intros chunks; [done|].
  simpl. replace (0 <? py_len text) with true by lia.
  replace (cs >=? py_len text) with false by lia.
  replace (Z.max 0 (cs - ov)) with 0 by lia.
  replace (Z.min (py_len text) (0 + cs)) with cs by lia.
  apply IH.
Qed.

(** X4.  With a [chunk_size] of zero or less and an overlap that is not
    negative, [split_text] returns on no text but the empty one: the window
    stays at [(0, chunk_size)] for ever. *)
Theorem split_text_nonpositive_chunk_size_diverges text cs ov :
  cs ≤ 0 → 0 ≤ ov → 0 < py_len text →
  ∀ fuel, split_text fuel text cs ov = None.
Proof.
  intros Hcs Hov Hlen fuel. unfold split_text.
  replace (py_len text <=? cs) with false by lia.
  by rewrite split_loop_stuck by lia.
Qed.

Lemma split_text_nonpositive_chunk_size_diverges_witness :
  split_text 1000 "abc" 0 150 = None.
Proof.
  apply (split_text_nonpositive_chunk_size_diverges "abc" 0 150);
    by vm_compute.
Defined.

(** ** Slugs *)

Lemma lower_alnum c : isalnum c = true → slug_char (lower c) = true.
Proof. destruct c as [[] [] [] [] [] [] [] []]; by vm_compute. Qed.

Lemma lower_hyphen c : lower c = "-"%char → c = "-"%char.
Proof. destruct c as [[] [] [] [] [] [] [] []]; by vm_compute. Qed.

Lemma lower_slug_char c : slug_char c = true → lower c = c.
Proof. destruct c as [[] [] [] [] [] [] [] []]; by vm_compute. Qed.

Lemma slug_char_alnum c : slug_char c = true → isalnum c = true.
Proof. destruct c as [[] [] [] [] [] [] [] []]; by vm_compute. Qed.

Lemma is_hyphen_spec c : is_hyphen c = true ↔ c = "-"%char.
Proof. unfold is_hyphen. apply Ascii.eqb_eq. Qed.

Lemma sub_non_alnum_chars in_run l :
  Forall (λ c, isalnum c = true ∨ c = "-"%char) (sub_non_alnum in_run l).
Proof.
  revert in_run. induction l as [|c l IH]; intros in_run; simpl; [done|].
  destruct (isalnum c) eqn:Hc; [constructor; auto|].
  destruct in_run; [done|]. constructor; auto.
Qed.

Lemma sub_non_alnum_apart in_run l :
  hyphens_apart (sub_non_alnum in_run l)
  ∧ (in_run = true → head (sub_non_alnum in_run l) ≠ Some "-"%char).
Proof.
  revert in_run. induction l as [|c l IH]; intros in_run; simpl; [done|].
  destruct (isalnum c) eqn:Hc.
  - destruct (IH false) as [Hap _]. split.
    + destruct (sub_non_alnum false l) eqn:Hl; [done|]. split; [|done].
      intros [-> _]. done.
    + intros _ [= ->]. done.
  - destruct (IH true) as [Hap Hhd]. destruct in_run; [done|]. split; [|done].
    destruct (sub_non_alnum true l) eqn:Hl; [done|]. split; [|done].
    intros [_ ->]. by apply Hhd.
Qed.

Lemma hyphens_apart_cons a l : hyphens_apart (a :: l) → hyphens_apart l.
Proof. destruct l; [done|]. by intros [_ ?]. Qed.

Lemma hyphens_apart_app_r l1 l2 : hyphens_apart (l1 ++ l2) → hyphens_apart l2.
Proof.
  induction l1 as [|a l1 IH]; [done|]. intros H%hyphens_apart_cons. auto.
Qed.

Lemma hyphens_apart_app_l l1 l2 : hyphens_apart (l1 ++ l2) → hyphens_apart l1.
Proof.
  induction l1 as [|a l1 IH]; [done|]. destruct l1 as [|b l1]; [done|].
  simpl. intros [Hab Hrest]. split; [done|]. by apply IH.
Qed.

Lemma hyphens_apart_lower l : hyphens_apart l → hyphens_apart (lower <$> l).
Proof.
  induction l as [|a l IH]; [done|]. destruct l as [|b l]; [done|].
  intros [Hab Hrest]. split; [|by apply IH].
  intros [Ha%lower_hyphen Hb%lower_hyphen]. by apply Hab.
Qed.

Lemma slug_shape_entry : slug_shape "entry".
Proof.
  unfold slug_shape. simpl. split; [done|]. split.
  - repeat constructor.
  - repeat split; try done; intros [[=] _].
Qed.

(** The slug before the fall-back to "entry". *)
Lemma slug_candidate_shape value :
  let replaced := sub_non_alnum false (list_ascii_of_string value) in
  let stripped := rstrip_by is_hyphen (lstrip_by is_hyphen replaced) in
  truthy (string_of_list_ascii (lower <$> stripped)) = true →
  slug_shape (string_of_list_ascii (lower <$> stripped)).
Proof.
  intros replaced stripped Htruthy.
  unfold slug_shape. rewrite list_ascii_of_string_of_list_ascii.
  destruct (lstrip_by_suffix is_hyphen replaced) as [pre Hpre].
  destruct (rstrip_by_prefix is_hyphen (lstrip_by is_hyphen replaced))
    as [post Hpost]. fold stripped in Hpost.
  assert (Forall (λ c, isalnum c = true ∨ c = "-"%char) stripped) as Hchars.
  { pose proof (sub_non_alnum_chars false (list_ascii_of_string value)) as H.
    fold replaced in H. rewrite Hpre, Hpost in H.
    by apply Forall_app in H as [_ [H _]%Forall_app]. }
  assert (hyphens_apart stripped) as Hapart.
  { pose proof (proj1 (sub_non_alnum_apart false (list_ascii_of_string value)))
      as H.
    fold replaced in H. rewrite Hpre, Hpost in H.
    by apply hyphens_apart_app_r, hyphens_apart_app_l in H. }
  split; [|split; [|split; [|split]]].
  - intros Hnil. apply truthy_nonempty in Htruthy. apply Htruthy.
    by rewrite Hnil.
  - apply Forall_fmap. eapply Forall_impl; [exact Hchars|].
    intros c [Hc| ->]; [left; by apply lower_alnum|by right].
  - destruct stripped as [|c stripped'] eqn:Hs; [done|]. simpl.
    intros [= Hc%lower_hyphen]. subst c.
    pose proof (strip_chars_head is_hyphen replaced "-"%char) as H.
    fold stripped in H. rewrite Hs in H. by specialize (H eq_refl).
  - rewrite fmap_last. destruct (last stripped) as [c|] eqn:Hlast; [|done].
    simpl. intros [= Hc%lower_hyphen]. subst c.
    by apply rstrip_by_last in Hlast.
  - by apply hyphens_apart_lower.
Qed.

Lemma sub_non_alnum_fixed in_run l :
  Forall (λ c, slug_char c = true ∨ c = "-"%char) l → hyphens_apart l →
  (in_run = true → head l ≠ Some "-"%char) →
  sub_non_alnum in_run l = l.
Proof.
  intros Hchars. revert in_run.
  induction Hchars as [|c l Hc _ IH]; intros in_run Hapart Hhead; [done|].
  simpl. destruct Hc as [Hc| ->].
  - rewrite (slug_char_alnum c Hc). f_equal.
    apply IH; [by apply hyphens_apart_cons in Hapart|done].
  - change (isalnum "-") with false. destruct in_run.
    { by destruct (Hhead eq_refl). }
    f_equal. apply IH; [by apply hyphens_apart_cons in Hapart|].
    intros _. destruct l as [|b l]; [done|]. simpl. intros [= ->].
    by destruct Hapart as [[] _].
Qed.

Lemma lstrip_by_fixed p l :
  (∀ c, head l = Some c → p c = false) → lstrip_by p l = l.
Proof. destruct l as [|c l]; [done|]. simpl. intros H. by rewrite H. Qed.

Lemma rstrip_by_fixed p l :
  (∀ c, last l = Some c → p c = false) → rstrip_by p l = l.
Proof.
  intros H. unfold rstrip_by. rewrite lstrip_by_fixed; [apply reverse_involutive|].
  intros c. rewrite head_reverse. apply H.
Qed.

(** A text that has the shape of a slug is its own slug. *)
Lemma slugify_fixed s : slug_shape s → slugify s = s.
Proof.
  intros (Hne & Hchars & Hhead & Hlast & Hapart). unfold slugify.
  rewrite sub_non_alnum_fixed by done.
  rewrite lstrip_by_fixed, rstrip_by_fixed.
  - replace (lower <$> list_ascii_of_string s) with (list_ascii_of_string s).
    + rewrite string_of_list_ascii_of_string.
      destruct (truthy s) eqn:Hs; [done|].
      destruct s; [done|]. done.
    + symmetry. rewrite <-(list_fmap_id (list_ascii_of_string s)) at 2.
      apply Forall_fmap_ext_1. eapply Forall_impl; [exact Hchars|].
      intros c [Hc| ->]; [by apply lower_slug_char|done].
  - intros c Hc. destruct (is_hyphen c) eqn:Hh; [|done].
    apply is_hyphen_spec in Hh as ->. done.
  - intros c Hc. destruct (is_hyphen c) eqn:Hh; [|done].
    apply is_hyphen_spec in Hh as ->. done.
Qed.

(** X5.  [slugify] never gives an empty slug: it gives words of lower-case
    letters and digits joined by single hyphens, with no hyphen at either
    end. *)
Theorem slugify_shape value : slug_shape (slugify value).
Proof.
  unfold slugify. destruct (truthy _) eqn:Htruthy.
  - by apply slug_candidate_shape.
  - apply slug_shape_entry.
Qed.

(** X6.  [slugify] is idempotent: the slug of a slug is the slug itself. *)
Theorem slugify_idempotent value : slugify (slugify value) = slugify value.
Proof.
  apply slugify_fixed. unfold slugify. destruct (truthy _) eqn:Htruthy.
  - by apply slug_candidate_shape.
  - apply slug_shape_entry.
Qed.

(** ** Labels *)

Lemma guess_label_in_spec items keys label :
  guess_label_in items keys = Some label
  ↔ ∃ before key after raw,
      keys = before ++ key :: after
      ∧ dict_get items key = Some (JStr raw)
      ∧ strip raw = label ∧ label ≠ ""
      ∧ Forall (λ k, ∀ raw', dict_get items k = Some (JStr raw')
                             → strip raw' = "") before.
Proof.
  split.
  - induction keys as [|k keys IH]; simpl; [done|].
    assert (guess_label_in items keys = Some label →
            (∀ raw', dict_get items k = Some (JStr raw') → strip raw' = "") →
            ∃ before key after raw,
              k :: keys = before ++ key :: after
              ∧ dict_get items key = Some (JStr raw)
              ∧ strip raw = label ∧ label ≠ ""
              ∧ Forall (λ k, ∀ raw', dict_get items k = Some (JStr raw')
                                     → strip raw' = "") before) as Hskip.
    { intros (before & key & after & raw & -> & ? & ? & ? & ?)%IH Hk.
      exists (k :: before), key, after, raw. repeat split; try done.
      by constructor. }
    destruct (dict_get items k) as [[| | |value| |]|] eqn:Hget;
      try (intros; by apply Hskip).
    destruct (truthy (strip value)) eqn:Htruthy.
    + intros [= <-]. exists [], k, keys, value.
      repeat split; try done. by apply truthy_nonempty.
    + intros Hrest. apply Hskip; [done|]. intros raw' [= <-].
      destruct (strip value) eqn:Hs; [done|]. done.
  - intros (before & key & after & raw & -> & Hget & Hstrip & Hne & Hbefore).
    induction Hbefore as [|k before Hk _ IH]; simpl.
    + rewrite Hget, Hstrip.
      assert (truthy label = true) as -> by (by apply truthy_nonempty).
      done.
    + destruct (dict_get items k) as [[| | |value| |]|] eqn:Hgetk; try done.
      by rewrite (Hk value eq_refl).
Qed.

(** X7.  [guess_label] finds a label exactly on an object in which one of
    the keys title, company, name, question, label, role holds a string that
    is not blank: the label is that string stripped, taken from the first
    such key in this order, so it is never empty and has no white space at
    its ends. *)
Theorem guess_label_first_key entry label :
  guess_label entry = Some label
  ↔ ∃ items before key after raw,
      entry = JDict items
      ∧ label_keys = before ++ key :: after
      ∧ dict_get items key = Some (JStr raw)
      ∧ strip raw = label ∧ label ≠ "" ∧ trimmed label
      ∧ Forall (λ k, ∀ raw', dict_get items k = Some (JStr raw')
                             → strip raw' = "") before.
Proof.
  split.
  - destruct entry as [| | | | |items]; try done. unfold guess_label.
    intros (before & key & after & raw & ? & ? & <- & ? & ?)%guess_label_in_spec.
    exists items, before, key, after, raw.
    repeat split; try done; apply strip_trimmed.
  - intros (items & before & key & after & raw & -> & ? & ? & ? & ? & _ & ?).
    unfold guess_label. apply guess_label_in_spec.
    by exists before, key, after, raw.
Qed.

(** ** Chunks of documents and files *)

Section ChunkSet.
Context {lib : Library}.

Lemma document_chunks_pieces fuel name cs ov base_id topic text chunks :
  document_chunks fuel name cs ov (base_id, topic, text) = Ok chunks →
  ∃ pieces,
    split_text fuel text cs ov = Some pieces
    ∧ chunks = imap (λ i piece,
                 {| chunk_id := base_id +:+ ":" +:+ pretty (S i);
                    source := name; topic := topic; body := piece;
                    checksum := sha256_hexdigest piece |}) pieces.
Proof.
  unfold document_chunks.
  destruct (split_text fuel text cs ov) as [pieces|]; [|done].
  intros [= <-]. by exists pieces.
Qed.


Lemma generate_documents_text_head source payload doc :
  doc ∈ generate_documents source payload → ∃ s', doc.2 = String "S" s'.
Proof.
  destruct payload as [| | | |entries|items]; simpl;
    try (intros ->%list_elem_of_singleton; simpl; by eexists).
  - intros (i & entry & -> & _)%elem_of_lookup_imap. simpl.
    apply document_text_head.
  - intros ([key value] & -> & _)%list_elem_of_fmap. simpl.
    apply document_text_head.
Qed.

Lemma split_text_pieces fuel c s' cs ov pieces :
  isspace c = false →
  split_text fuel (String c s') cs ov = Some pieces →
  Forall (λ piece, piece ≠ "" ∧ trimmed piece) pieces.
Proof.
  intros Hc. rewrite split_text_windows.
  destruct (py_len _ <=? cs).
  - intros [= <-]. constructor; [|done]. split; [|apply strip_trimmed].
    destruct (strip_by_keeps_head isspace c s' Hc) as [s1 Hs1].
    unfold strip. by rewrite Hs1.
  - destruct (split_windows fuel _ _ _ _ _) as [ws|]; [|done].
    simpl. intros [= <-]. unfold windows_chunks. apply Forall_forall.
    intros piece [Hne (w & -> & _)%list_elem_of_fmap]%list_elem_of_filter.
    split; [by apply truthy_nonempty|apply window_chunk_trimmed].
Qed.

(** What holds of every chunk of every document of every globbed file holds
    of every chunk [build_chunks] returns. *)
Lemma build_chunks_Forall (P : DocumentChunk → Prop) fuel files cs ov chunks :
  (∀ name payload doc chunks',
     (name, Parsed payload) ∈ glob_json files →
     doc ∈ generate_documents (path_stem name) payload →
     document_chunks fuel name cs ov doc = Ok chunks' → Forall P chunks') →
  build_chunks fuel (Some files) cs ov = Ok chunks → Forall P chunks.
Proof.
  intros HP. unfold build_chunks.
  assert (∀ sorted_files chunks,
            sorted_files ⊆ glob_json files →
            files_chunks fuel cs ov sorted_files = Ok chunks →
            Forall P chunks) as Hfiles.
  { clear chunks. induction sorted_files as [|[name content] fs IH];
      intros chunks Hsub; simpl; [by intros [= <-]|].
    unfold file_chunks at 1. simpl.
    destruct content as [payload|]; [|done].
    assert (∀ docs chunks,
              docs ⊆ generate_documents (path_stem name) payload →
              documents_chunks fuel name cs ov docs = Ok chunks →
              Forall P chunks) as Hdocs.
    { clear chunks IH. induction docs as [|doc docs IH];
        intros chunks Hdsub; simpl; [by intros [= <-]|].
      destruct (document_chunks fuel name cs ov doc) as [cs1| |] eqn:Hdoc;
        [|done..]. simpl.
      destruct (documents_chunks fuel name cs ov docs) as [cs2| |] eqn:Hrest;
        [|done..]. simpl. intros [= <-]. apply Forall_app. split.
      - apply (HP name payload doc); [|set_solver|done]. set_solver.
      - apply IH; [set_solver|done]. }
    destruct (documents_chunks fuel name cs ov _) as [cs1| |] eqn:Hfile;
      [|done..]. simpl.
    destruct (files_chunks fuel cs ov fs) as [cs2| |] eqn:Hrest; [|done..].
    simpl. intros [= <-]. apply Forall_app. split.
    - by apply (Hdocs (generate_documents (path_stem name) payload)).
    - apply IH; [set_solver|done]. }
  apply Hfiles. unfold sorted_paths. intros f.
  by rewrite merge_sort_Permutation.
Qed.

(** X9.  Every chunk [build_chunks] returns has a body that is not empty and
    has no white space at its ends, the checksum of that body, and as source
    the name of a file of the directory that ends in .json. *)
Theorem build_chunks_chunks fuel files cs ov chunks :
  build_chunks fuel (Some files) cs ov = Ok chunks →
  Forall (λ c, body c ≠ "" ∧ trimmed (body c)
               ∧ checksum c = sha256_hexdigest (body c)
               ∧ source c ∈ files.*1
               ∧ ends_with ".json" (source c) = true) chunks.
Proof.
  apply build_chunks_Forall.
  intros name payload [[base_id topic] text] chunks' Hfile Hdoc.
  intros (pieces & Hsplit & ->)%document_chunks_pieces.
  apply generate_documents_text_head in Hdoc as [s' Htext]. simpl in Htext.
  subst text. apply split_text_pieces in Hsplit; [|done].
  apply list_elem_of_filter in Hfile as [Hjson Hfile].
  apply Forall_forall. intros c (i & piece & -> & Hi)%elem_of_lookup_imap.
  simpl. rewrite Forall_forall in Hsplit.
  destruct (Hsplit piece) as [Hne Htrim];
    [by eapply list_elem_of_lookup_2|].
  split; [done|]. split; [done|]. split; [done|]. split; [|done].
  by apply (list_elem_of_fmap_2 fst) in Hfile.
Qed.

Lemma glob_json_app (l1 l2 : listing) :
  glob_json (l1 ++ l2) = glob_json l1 ++ glob_json l2.
Proof. apply filter_app. Qed.

Lemma glob_json_others (others : listing) :
  Forall (λ f, ends_with ".json" f.1 = false) others → glob_json others = [].
Proof.
  intros Hothers. apply filter_none.
  eapply Forall_impl; [exact Hothers|]. intros f Hf. by rewrite Hf.
Qed.

(** X10.  Files whose names do not end in .json do not count: with or
    without them in the directory, [build_chunks] gives the same outcome. *)
Theorem build_chunks_ignores_other_files fuel l1 others l2 cs ov :
  Forall (λ f, ends_with ".json" f.1 = false) others →
  build_chunks fuel (Some (l1 ++ others ++ l2)) cs ov
  = build_chunks fuel (Some (l1 ++ l2)) cs ov.
Proof.
  intros Hothers. unfold build_chunks.
  rewrite !glob_json_app. by rewrite (glob_json_others others).
Qed.

End ChunkSet.


Lemma build_chunks_chunks_witness :
  Forall (λ c, body c ≠ "" ∧ trimmed (body c)
               ∧ checksum c = sha256_hexdigest (Library := sample_library)
                                (body c)
               ∧ source c ∈ (map_to_list sample_dir).*1
               ∧ ends_with ".json" (source c) = true)
    (default [] (match build_chunks (lib := sample_library) 5
                         (Some (map_to_list sample_dir)) 900 150 with
                 | Ok chunks => Some chunks
                 | _ => None
                 end)).
Proof.
  apply (build_chunks_chunks (lib := sample_library) 5
           (map_to_list sample_dir) 900 150).
  by vm_compute.
Defined.

Lemma build_chunks_ignores_other_files_witness :
  build_chunks (lib := sample_library) 5
    (Some ([("about.json", Parsed (JStr "hello"))]
           ++ [("rag_chunks.db", Unparsable)] ++ [])) 900 150
  = build_chunks (lib := sample_library) 5
      (Some ([("about.json", Parsed (JStr "hello"))] ++ [])) 900 150.
Proof.
  apply (build_chunks_ignores_other_files (lib := sample_library)).
  by repeat constructor.
Defined.

(** ** The store and the diff at the edges *)

(** X11.  On a first run, when the SQLite file or its table is missing or
    the table is empty, nothing is deleted and every chunk is refreshed. *)
Theorem first_run_refreshes_everything db (chunks : list DocumentChunk) :
  db = NoFile ∨ db = NoTable ∨ db = Table [] →
  to_delete (load_existing_rows db) chunks = []
  ∧ to_refresh (load_existing_rows db) chunks = chunks.
Proof.
  intros Hdb.
  assert (load_existing_rows db = ∅) as -> by (by destruct Hdb as [->|[->| ->]]).
  split.
  - unfold to_delete. rewrite dom_empty_L.
    replace (∅ ∖ list_to_set (chunk_id <$> chunks)) with (∅ : gset string)
      by (apply set_eq; intros id; rewrite elem_of_difference;
          split; [done|by intros [? _]]).
    by rewrite elements_empty.
  - unfold to_refresh. apply filter_all, Forall_forall.
    intros c _. by rewrite lookup_empty.
Qed.

Lemma first_run_refreshes_everything_witness :
  to_delete (load_existing_rows NoFile) sample_chunks = []
  ∧ to_refresh (load_existing_rows NoFile) sample_chunks = sample_chunks.
Proof. apply first_run_refreshes_everything. by left. Defined.

(** X12.  When two chunks share an id, [persist_sqlite] raises
    [IntegrityError] and the transaction is rolled back: the rows of an
    existing table are the ones it had, and the mapping read back is the one
    from before. *)
Theorem persist_sqlite_rolls_back db chunks now :
  ¬ NoDup (chunk_id <$> chunks) →
  (persist_sqlite db chunks now).1 = Err IntegrityError
  ∧ load_existing_rows (persist_sqlite db chunks now).2 = load_existing_rows db
  ∧ ∀ rows, db = Table rows → (persist_sqlite db chunks now).2 = db.
Proof.
  intros Hdup. rewrite persist_sqlite_spec, decide_False by done. simpl.
  split; [done|]. split; [by destruct db|]. by intros rows ->.
Qed.

Lemma persist_sqlite_rolls_back_witness :
  (persist_sqlite (Table (chunk_row "t0" <$> sample_chunks))
     (sample_chunks ++ sample_chunks) "t1").1 = Err IntegrityError
  ∧ load_existing_rows
      (persist_sqlite (Table (chunk_row "t0" <$> sample_chunks))
         (sample_chunks ++ sample_chunks) "t1").2
    = load_existing_rows (Table (chunk_row "t0" <$> sample_chunks)).
Proof.
  destruct (persist_sqlite_rolls_back
              (Table (chunk_row "t0" <$> sample_chunks))
              (sample_chunks ++ sample_chunks) "t1") as (H1 & H2 & _).
  - rewrite fmap_app. intros (_ & Hdisj & _)%NoDup_app.
    apply (Hdisj "faq-a:1"); by left.
  - by split.
Defined.

(** ** Batches *)

(** X13.  For a positive [size], [chunked] cuts the sequence into batches
    that, put end to end, are the sequence again, each batch holding at
    least one and at most [size] elements. *)
Theorem chunked_partition {A} (sequence : list A) size batches :
  0 < size → chunked sequence size = Ok batches →
  concat batches = sequence
  ∧ Forall (λ batch : list A, (1 ≤ length batch)%nat
                              ∧ Z.of_nat (length batch) ≤ size) batches.
Proof.
  intros Hsize Hchunked. split.
  - by apply (chunked_concat sequence size).
  - by apply (chunked_batches sequence size).
Qed.

Lemma chunked_partition_witness :
  concat [["a"; "b"]; ["c"; "d"]; ["e"]] = ["a"; "b"; "c"; "d"; "e"].
Proof.
  apply (chunked_partition ["a"; "b"; "c"; "d"; "e"] 2); [lia|reflexivity].
Defined.

(** X14.  Every batch of [chunked] but the last holds exactly [size]
    elements. *)
Theorem chunked_full_batches {A} (sequence : list A) size batches i batch :
  0 < size → chunked sequence size = Ok batches →
  batches !! i = Some batch → (S i < length batches)%nat →
  Z.of_nat (length batch) = size.
Proof.
  intros Hsize. unfold chunked.
  replace (size =? 0) with false by lia. replace (size <? 0) with false by lia.
  intros [= <-]. rewrite length_fmap. unfold range_step.
  rewrite length_fmap, length_seqZ, <-list_fmap_compose, list_lookup_fmap.
  intros Hi Hlen. destruct (seqZ _ _ !! i) as [k|] eqn:Hk; [|done].
  apply lookup_seqZ in Hk as [-> _]. simpl in Hi. injection Hi as <-.
  rewrite length_take, length_drop.
  pose proof (Z.mul_div_le (Z.of_nat (length sequence) + size - 1) size Hsize).
  set (cnt := (Z.of_nat (length sequence) + size - 1) `div` size) in *.
  assert (Z.of_nat i + 2 ≤ cnt) by lia.
  assert ((Z.of_nat i + 1) * size ≤ Z.of_nat (length sequence)) by nia.
  assert (0 ≤ Z.of_nat i * size) by nia.
  lia.
Qed.

Lemma chunked_full_batches_witness : Z.of_nat (length ["c"; "d"]) = 2.
Proof.
  apply (chunked_full_batches ["a"; "b"; "c"; "d"; "e"] 2
           [["a"; "b"]; ["c"; "d"]; ["e"]] 1); [lia|reflexivity..|simpl; lia].
Defined.

(** ** The log of a run: order, contents, first failure *)

Section LogSteps.
Context {lib : Library} {svc : Services}.

Implicit Types (w : World) (new : list (request vector * response vector)).

Lemma ok_but_last_app new1 new2 :
  Forall (λ x, status_code x.2 < 300) new1 → ok_but_last new2 →
  ok_but_last (new1 ++ new2).
Proof.
  induction 1 as [|x new1 Hx _ IH]; intros Hnew2; [done|].
  specialize (IH Hnew2). simpl.
  by destruct (new1 ++ new2).
Qed.

Lemma ok_but_last_lookup new i x :
  ok_but_last new → new !! i = Some x → 300 ≤ status_code x.2 →
  S i = length new.
Proof.
  revert i. induction new as [|y new IH]; intros i; [done|].
  destruct new as [|z new].
  - destruct i; [done|]. by destruct i.
  - intros [Hy Hrest]. destruct i as [|i]; simpl.
    + intros [= <-]. lia.
    + intros Hi Hbad. f_equal. by apply IH.
Qed.

Lemma tidy_lift {A} lo hi φ (r : res A) : tidy lo hi φ (lift r).
Proof.
  intros w. exists []. unfold adds, lift. simpl. rewrite app_nil_r.
  repeat split; by try constructor.
Qed.

Lemma tidy_weaken {A} lo hi lo' hi' (φ ψ : _ → Prop) (m : M A) :
  lo' ≤ lo → hi ≤ hi' → (∀ x, φ x → ψ x) → tidy lo hi φ m → tidy lo' hi' ψ m.
Proof.
  intros Hlo Hhi Himp Hm w.
  destruct (Hm w) as (new & ? & Hφ & Hphase & ? & ? & ?).
  exists new. split; [done|].
  split; [eapply Forall_impl; [exact Hφ|exact Himp]|].
  split; [|done]. eapply Forall_impl; [exact Hphase|]. simpl. lia.
Qed.

(** Sequencing a step of the phases up to [mid] with one of the phases from
    [mid] on. *)
Lemma tidy_bind {A B} lo mid hi φ (m : M A) (k : A → M B) :
  lo ≤ mid ≤ hi →
  tidy lo mid φ m → (∀ a, tidy mid hi φ (k a)) → tidy lo hi φ (bind m k).
Proof.
  intros Hmid Hm Hk w.
  destruct (Hm w) as (new1 & (Hd & Hs & Hn & Hh) & Hφ & Hp & Hsorted & Hlast & Hok).
  unfold adds, bind. destruct (m w) as [[a|e|] w1]; simpl in *.
  - destruct (Hk a w1)
      as (new2 & (Hd2 & Hs2 & Hn2 & Hh2) & Hφ2 & Hp2 & Hsorted2 & Hlast2 & Hok2).
    specialize (Hok a eq_refl). exists (new1 ++ new2).
    split; [|split; [|split; [|split; [|split]]]].
    + rewrite Hd2, Hs2, Hn2, Hh2, Hd, Hs, Hn, Hh. by rewrite app_assoc.
    + by apply Forall_app.
    + apply Forall_app. split.
      * eapply Forall_impl; [exact Hp|]. simpl. lia.
      * eapply Forall_impl; [exact Hp2|]. simpl. lia.
    + unfold in_phase_order in *.
      apply StronglySorted_app. repeat split; try done.
      intros x1 x2 Hx1 Hx2. rewrite Forall_forall in Hp, Hp2.
      specialize (Hp x1 Hx1). specialize (Hp2 x2 Hx2). simpl in *. lia.
    + by apply ok_but_last_app.
    + intros b Hb. apply Forall_app. split; [done|]. by apply (Hok2 b).
  - exists new1. repeat split; try done.
    eapply Forall_impl; [exact Hp|]. simpl. lia.
  - exists new1. repeat split; try done.
    eapply Forall_impl; [exact Hp|]. simpl. lia.
Qed.

(** One [requests.post] with the status check that follows it. *)
Lemma tidy_post {A} lo hi φ rq msg (k : response vector → M A) :
  lo ≤ phase rq ≤ hi → (∀ rs, φ (rq, rs)) →
  (∀ rs, tidy (phase rq) hi φ (k rs)) →
  tidy lo hi φ
    (bind (post rq) (λ response,
       if status_code response >=? 300 then raise (SystemExit msg)
       else k response)).
Proof.
  intros Hphase Hrq Hk w. unfold adds, bind, post.
  destruct (requests_post (w_remote w) rq) as [rem rs]. simpl.
  destruct (status_code rs >=? 300) eqn:Hstatus.
  - exists [(rq, rs)]. unfold raise. simpl.
    split; [done|]. split; [by constructor|]. split; [by constructor|].
    split; [unfold in_phase_order; by repeat constructor|]. by split.
  - match goal with |- context [k rs ?w1] => set (w1' := w1) end.
    destruct (Hk rs w1')
      as (new & (Hd & Hs & Hn & Hh) & Hφ & Hp & Hsorted & Hlast & Hok).
    exists ((rq, rs) :: new). split; [|split; [|split; [|split; [|split]]]].
    + rewrite Hd, Hs, Hn, Hh. unfold w1'. simpl. by rewrite <-app_assoc.
    + by constructor.
    + constructor; [done|]. eapply Forall_impl; [exact Hp|]. simpl. lia.
    + constructor; [done|]. eapply Forall_impl; [exact Hp|]. simpl. lia.
    + simpl. destruct new; [done|]. split; [lia|done].
    + intros a Ha. constructor; [simpl; lia|by apply (Hok a)].
Qed.

Lemma embed_loop_tidy φ self batches vectors :
  Forall (λ batch, ∀ rs, φ (EmbedRequest (oe_model self) batch, rs)) batches →
  tidy 0 0 φ (embed_loop self batches vectors).
Proof.
  intros Hbatches. revert vectors.
  induction Hbatches as [|batch batches Hbatch _ IH]; intros vectors.
  - apply (tidy_lift _ _ _ (Ok vectors)).
  - apply (tidy_post 0 0 φ); [done|done|]. intros rs.
    destruct (embeddings rs); [apply IH|apply (tidy_lift _ _ _ (Err KeyError))].
Qed.

(** A step that starts from a value computed without the world. *)
Lemma tidy_bind_lift {A B} lo hi φ (r : res A) (k : A → M B) :
  (∀ a, r = Ok a → tidy lo hi φ (k a)) → tidy lo hi φ (bind (lift r) k).
Proof.
  intros Hk w. destruct r as [a|e|].
  - exact (Hk a eq_refl w).
  - exact (tidy_lift lo hi φ (Err e) w).
  - exact (tidy_lift lo hi φ Timeout w).
Qed.

Lemma embed_tidy φ self texts :
  (∀ batches, chunked texts (oe_batch_size self) = Ok batches →
     Forall (λ batch, ∀ rs, φ (EmbedRequest (oe_model self) batch, rs))
       batches) →
  tidy 0 0 φ (embed self texts).
Proof.
  intros Hφ. apply tidy_bind_lift. intros batches Hc.
  by apply embed_loop_tidy, Hφ.
Qed.

Lemma upsert_loop_tidy φ self batches :
  Forall (λ batch, ∀ rs, φ (UpsertRequest batch (payload_namespace self), rs))
    batches →
  tidy 1 1 φ (upsert_loop self batches).
Proof.
  induction 1 as [|batch batches Hbatch _ IH].
  - apply (tidy_lift _ _ _ (Ok ())).
  - by apply (tidy_post 1 1 φ).
Qed.

Lemma upsert_tidy φ self vectors :
  (∀ batches, chunked vectors (pc_batch_size self) = Ok batches →
     Forall (λ batch,
               ∀ rs, φ (UpsertRequest batch (payload_namespace self), rs))
       batches) →
  tidy 1 1 φ (upsert self vectors).
Proof.
  intros Hφ. apply tidy_bind_lift. intros batches Hc.
  by apply upsert_loop_tidy, Hφ.
Qed.

Lemma delete_tidy φ self ids :
  (∀ rs, φ (DeleteRequest ids (payload_namespace self), rs)) →
  tidy 2 2 φ (delete self ids).
Proof.
  intros Hφ. apply (tidy_post 2 2 φ); [done|done|].
  intros rs. apply (tidy_lift _ _ _ (Ok ())).
Qed.

(** The batches of [chunked] are made of elements of the sequence. *)
Lemma chunked_subset {A} (sequence : list A) size batches :
  chunked sequence size = Ok batches →
  Forall (λ batch, batch ⊆ sequence) batches.
Proof.
  unfold chunked. destruct (size =? 0); [done|].
  destruct (size <? 0); intros [= <-]; [done|].
  apply Forall_fmap, Forall_forall. intros start _. simpl.
  etrans; [apply subseteq_take|apply subseteq_drop].
Qed.

Lemma upsert_chunks_tidy args pinecone client to_refresh to_delete :
  oe_model client = embedding_model args →
  tidy 0 1 (run_request args to_refresh to_delete)
    (upsert_chunks pinecone (Some client) to_refresh).
Proof.
  intros Hmodel. unfold upsert_chunks.
  destruct to_refresh as [|c chunks] eqn:Hchunks;
    [apply (tidy_lift _ _ _ (Ok ()))|]. rewrite <-Hchunks.
  apply (tidy_bind 0 0 1); [done| |].
  - apply embed_tidy. intros batches Hc.
    pose proof (chunked_batches _ _ _ Hc) as Hsizes.
    pose proof (chunked_subset _ _ _ Hc) as Hsub.
    apply Forall_forall. intros batch Hbatch rs.
    rewrite Forall_forall in Hsizes, Hsub.
    unfold run_request. simpl. split; [done|]. split; [|by apply Hsub].
    destruct (Hsizes batch Hbatch) as [Hlen _]. intros ->. simpl in Hlen. lia.
  - intros vectors. eapply tidy_weaken; [| | |apply upsert_tidy]; [done..| |].
    + intros x Hx. exact Hx.
    + intros batches Hc.
      pose proof (chunked_batches _ _ _ Hc) as Hsizes.
      pose proof (chunked_subset _ _ _ Hc) as Hsub.
      apply Forall_forall. intros batch Hbatch rs.
      rewrite Forall_forall in Hsizes, Hsub.
      unfold run_request. simpl. split.
      { destruct (Hsizes batch Hbatch) as [Hlen _]. intros ->.
        simpl in Hlen. lia. }
      apply Forall_forall. intros record Hrecord.
      apply (Hsub batch Hbatch) in Hrecord.
      apply list_elem_of_fmap in Hrecord as ([chunk values] & -> & Hzip).
      exists chunk, values. split; [|done].
      by apply elem_of_zip_l in Hzip.
Qed.

Lemma remote_sync_tidy args env to_refresh to_delete :
  tidy 0 2 (run_request args to_refresh to_delete)
    (remote_sync args env to_refresh to_delete).
Proof.
  unfold remote_sync.
  destruct (skip_pinecone args); [apply (tidy_lift _ _ _ (Ok ()))|].
  apply (tidy_bind 0 1 2); [done|by apply upsert_chunks_tidy|]. intros _.
  destruct to_delete as [|id ids]; [apply (tidy_lift _ _ _ (Ok ()))|].
  eapply tidy_weaken; [| | |apply delete_tidy]; [done..| |].
  - intros x Hx. exact Hx.
  - intros rs. unfold run_request. simpl. by split.
Qed.

(** The log of a whole run. *)
Lemma main_log fuel args env w :
  ∃ new,
    w_http (main fuel args env w).2 = w_http w ++ new
    ∧ in_phase_order new ∧ ok_but_last new
    ∧ ∀ chunks,
        build_chunks fuel (w_data_dir w) (chunk_size args) (chunk_overlap args)
        = Ok chunks →
        Forall (run_request args
                  (to_refresh (load_existing_rows (w_sqlite w)) chunks)
                  (to_delete (load_existing_rows (w_sqlite w)) chunks)) new.
Proof.
  rewrite main_steps. destruct (config_error args env) as [msg|].
  { exists []. simpl. rewrite app_nil_r. repeat split; by try constructor. }
  unfold run, bind, lift.
  destruct (build_chunks fuel _ _ _) as [chunks|e|]; cbv beta iota;
    [|exists []; rewrite app_nil_r; repeat split; by try constructor..].
  destruct (remote_sync_tidy args env
              (to_refresh (load_existing_rows (w_sqlite w)) chunks)
              (to_delete (load_existing_rows (w_sqlite w)) chunks) w)
    as (new & (_ & _ & _ & Hh) & Hφ & _ & Hsorted & Hlast & _).
  exists new. revert Hh.
  generalize (remote_sync args env
                (to_refresh (load_existing_rows (w_sqlite w)) chunks)
                (to_delete (load_existing_rows (w_sqlite w)) chunks) w).
  intros [[[]|e|] w1]; simpl; intros Hh.
  - destruct (persist_adds chunks w1) as (Hh' & _). rewrite Hh', Hh.
    repeat split; try done. by intros ? [= <-].
  - repeat split; try done. by intros ? [= <-].
  - repeat split; try done. by intros ? [= <-].
Qed.
(** X15.  A run stops at the first request that fails: in the log of a run
    an exchange with a status of 300 or more is the last one. *)
Theorem main_stops_at_first_failure fuel args env w i x :
  w_http w = [] →
  w_http (main fuel args env w).2 !! i = Some x →
  300 ≤ status_code x.2 →
  S i = length (w_http (main fuel args env w).2).
Proof.
  intros Hlog. destruct (main_log fuel args env w) as (new & -> & _ & Hlast & _).
  rewrite Hlog. simpl. by apply ok_but_last_lookup.
Qed.

Lemma in_phase_order_lookup new i j x y :
  in_phase_order new → new !! i = Some x → new !! j = Some y → (i < j)%nat →
  phase x.1 ≤ phase y.1.
Proof.
  intros Hsorted. revert i j.
  induction Hsorted as [|z new _ IH Hall]; intros i j; [done|].
  destruct j as [|j]; [lia|]. destruct i as [|i]; simpl.
  - intros [= <-] Hj _. rewrite Forall_forall in Hall.
    apply Hall. by eapply list_elem_of_lookup_2.
  - intros Hi Hj Hij. apply (IH i j); [done..|lia].
Qed.

(** X16.  A run sends its requests in the order of the phases: every
    embedding request comes before every upsert, and every upsert before the
    delete. *)
Theorem main_request_order fuel args env w i j x y :
  w_http w = [] →
  w_http (main fuel args env w).2 !! i = Some x →
  w_http (main fuel args env w).2 !! j = Some y →
  (i < j)%nat → phase x.1 ≤ phase y.1.
Proof.
  intros Hlog. destruct (main_log fuel args env w) as (new & -> & Hsorted & _).
  rewrite Hlog. simpl. by apply in_phase_order_lookup.
Qed.

(** X17.  What a run sends follows from its diff: an embedding request
    carries, under the configured model, a non-empty batch of bodies of
    chunks to refresh; an upsert request carries a non-empty batch of
    records made of chunks to refresh, with their id, source, topic and
    checksum; a delete request carries the ids to delete, all of them. *)
Theorem main_requests_of_diff fuel args env w chunks :
  w_http w = [] →
  build_chunks fuel (w_data_dir w) (chunk_size args) (chunk_overlap args)
  = Ok chunks →
  Forall (run_request args
            (to_refresh (load_existing_rows (w_sqlite w)) chunks)
            (to_delete (load_existing_rows (w_sqlite w)) chunks))
    (w_http (main fuel args env w).2).
Proof.
  intros Hlog Hbuild.
  destruct (main_log fuel args env w) as (new & -> & _ & _ & Hφ).
  rewrite Hlog. simpl. by apply Hφ.
Qed.

(** X18.  A run never deletes the vector of a current chunk: the ids of a
    delete request are recorded in the store and are the id of no chunk
    built in the run. *)
Theorem main_deletes_stale_ids_only fuel args env w chunks ids namespace rs id :
  w_http w = [] →
  build_chunks fuel (w_data_dir w) (chunk_size args) (chunk_overlap args)
  = Ok chunks →
  (DeleteRequest ids namespace, rs) ∈ w_http (main fuel args env w).2 →
  id ∈ ids →
  id ∈ dom (load_existing_rows (w_sqlite w)) ∧ id ∉ chunk_id <$> chunks.
Proof.
  intros Hlog Hbuild.
  destruct (main_log fuel args env w) as (new & -> & _ & _ & Hφ).
  rewrite Hlog. simpl. intros Hin Hid.
  specialize (Hφ chunks Hbuild). rewrite Forall_forall in Hφ.
  destruct (Hφ _ Hin) as [-> _]. by apply elem_of_to_delete.
Qed.

(** X19.  A run upserts changed chunks only: each record of an upsert
    request belongs to a chunk built in the run whose checksum is not the
    one the store holds for its id. *)
Theorem main_upserts_changed_chunks_only
    fuel args env w chunks vectors namespace rs record :
  w_http w = [] →
  build_chunks fuel (w_data_dir w) (chunk_size args) (chunk_overlap args)
  = Ok chunks →
  (UpsertRequest vectors namespace, rs) ∈ w_http (main fuel args env w).2 →
  record ∈ vectors →
  ∃ chunk,
    chunk ∈ chunks ∧ vr_id record = chunk_id chunk
    ∧ md_checksum (vr_metadata record) = checksum chunk
    ∧ load_existing_rows (w_sqlite w) !! chunk_id chunk
      ≠ Some (checksum chunk).
Proof.
  intros Hlog Hbuild.
  destruct (main_log fuel args env w) as (new & -> & _ & _ & Hφ).
  rewrite Hlog. simpl. intros Hin Hrecord.
  specialize (Hφ chunks Hbuild). rewrite Forall_forall in Hφ.
  destruct (Hφ _ Hin) as [_ Hrecords]. rewrite Forall_forall in Hrecords.
  destruct (Hrecords record Hrecord) as (chunk & values & Hchunk & ->).
  apply list_elem_of_filter in Hchunk as [Hchanged Hchunk].
  by exists chunk.
Qed.
End LogSteps.

Lemma main_stops_at_first_failure_witness :
  1%nat = length (w_http (sample_after 500)).
Proof.
  eapply (main_stops_at_first_failure (lib := sample_library) 5 sample_args
            sample_env (sample_world 500) 0); [done|by vm_compute|by vm_compute].
Defined.

Lemma main_request_order_witness :
  ∃ x y,
    w_http (main (lib := sample_library) 5 sample_args sample_env
              sample_stale_world).2 !! 1%nat = Some x
    ∧ w_http (main (lib := sample_library) 5 sample_args sample_env
                sample_stale_world).2 !! 2%nat = Some y
    ∧ phase x.1 ≤ phase y.1.
Proof.
  eexists _, _. split; [by vm_compute|]. split; [by vm_compute|].
  eapply (main_request_order (lib := sample_library) 5 sample_args sample_env
            sample_stale_world 1 2); [done|by vm_compute|by vm_compute|lia].
Defined.

Lemma main_requests_of_diff_witness :
  Forall (run_request sample_args
            (to_refresh (load_existing_rows (w_sqlite sample_stale_world))
               sample_built)
            (to_delete (load_existing_rows (w_sqlite sample_stale_world))
               sample_built))
    (w_http (main (lib := sample_library) 5 sample_args sample_env
               sample_stale_world).2).
Proof.
  apply (main_requests_of_diff (lib := sample_library) 5 sample_args
           sample_env sample_stale_world sample_built); [done|by vm_compute].
Defined.

Lemma main_deletes_stale_ids_only_witness :
  ∃ ids namespace rs,
    (DeleteRequest ids namespace, rs)
    ∈ w_http (main (lib := sample_library) 5 sample_args sample_env
                sample_stale_world).2
    ∧ "faq-a:1" ∈ ids
    ∧ "faq-a:1" ∉ chunk_id <$> sample_built.
Proof.
  eexists _, _, _. split; [vm_compute; right; right; left|].
  split; [left|].
  eapply (main_deletes_stale_ids_only (lib := sample_library) 5 sample_args
            sample_env sample_stale_world sample_built);
    [done|by vm_compute|vm_compute; right; right; left|left].
Defined.

Lemma main_upserts_changed_chunks_only_witness :
  ∃ vectors namespace rs record,
    (UpsertRequest vectors namespace, rs)
    ∈ w_http (main (lib := sample_library) 5 sample_args sample_env
                sample_stale_world).2
    ∧ record ∈ vectors
    ∧ ∃ chunk, chunk ∈ sample_built ∧ vr_id record = chunk_id chunk.
Proof.
  eexists _, _, _, _. split; [vm_compute; right; left|]. split; [left|].
  destruct (main_upserts_changed_chunks_only (lib := sample_library) 5
              sample_args sample_env sample_stale_world sample_built
              _ _ _ _ eq_refl ltac:(by vm_compute)
              ltac:(vm_compute; right; left) ltac:(left))
    as (chunk & ? & ? & _).
  by exists chunk.
Defined.

(** ** The clients, when they return *)

Section ClientResults.
Context {lib : Library} {svc : Services}.

Implicit Types (w : World).

Lemma embed_loop_ok self batches acc w vs w' :
  embed_loop self batches acc w = (Ok vs, w') →
  ∃ new,
    w_http w' = w_http w ++ new
    ∧ fst <$> new = EmbedRequest (oe_model self) <$> batches
    ∧ vs = acc ++ concat ((λ x, default [] (embeddings x.2)) <$> new).
Proof.
  revert acc w. induction batches as [|batch batches IH]; intros acc w.
  - intros [= <- <-]. exists []. by rewrite !app_nil_r.
  - cbn [embed_loop]. unfold bind, post.
    destruct (requests_post (w_remote w) _) as [rem rs] eqn:Hpost.
    destruct (status_code rs >=? 300); [done|].
    destruct (embeddings rs) as [data|] eqn:Hdata; [|done].
    intros (new & Hh & Hrqs & ->)%IH. simpl in Hh.
    exists ((EmbedRequest (oe_model self) batch, rs) :: new).
    split; [by rewrite Hh, <-app_assoc|]. split; [simpl; by f_equal|].
    simpl. rewrite Hdata. simpl. by rewrite <-app_assoc.
Qed.

(** X20.  When [embed] returns, it has sent every text once and in order,
    spread over its requests, and the vectors it returns are the embeddings
    of the responses, in the order of the requests. *)
Theorem embed_returns self texts w vs w' :
  0 < oe_batch_size self →
  embed self texts w = (Ok vs, w') →
  ∃ new,
    w_http w' = w_http w ++ new
    ∧ concat (request_input ∘ fst <$> new) = texts
    ∧ vs = concat ((λ x, default [] (embeddings x.2)) <$> new).
Proof.
  intros Hsize. unfold embed, bind, lift.
  destruct (chunked texts (oe_batch_size self)) as [batches|e|] eqn:Hc;
    [|done..].
  intros (new & Hh & Hrqs & ->)%embed_loop_ok. exists new.
  split; [done|]. split; [|done].
  rewrite list_fmap_compose, Hrqs, <-list_fmap_compose.
  rewrite (list_fmap_ext _ id batches) by done.
  rewrite list_fmap_id. by apply (chunked_concat texts (oe_batch_size self)).
Qed.




(** ** Runs that send nothing *)

(** X23.  With [--skip-pinecone] a run needs no key, sends no request and
    still rewrites the store: its outcome and its store are those of
    [persist_sqlite] on the chunks it built. *)
Theorem main_skip_pinecone fuel args env w chunks :
  skip_pinecone args = true →
  build_chunks fuel (w_data_dir w) (chunk_size args) (chunk_overlap args)
  = Ok chunks →
  w_http (main fuel args env w).2 = w_http w
  ∧ w_remote (main fuel args env w).2 = w_remote w
  ∧ ((main fuel args env w).1, w_sqlite (main fuel args env w).2)
    = persist_sqlite (w_sqlite w) chunks (w_now w).
Proof.
  intros Hskip Hbuild. rewrite main_steps. unfold config_error.
  rewrite Hskip, !andb_false_r. simpl.
  unfold run, bind, lift. rewrite Hbuild. cbv beta iota.
  unfold remote_sync. rewrite Hskip. unfold ret.
  by destruct (persist_adds chunks w) as (? & ? & _ & ?).
Qed.

(** X24.  Without [--skip-pinecone], a run that lacks the OpenAI key, the
    Pinecone key or the Pinecone host (unset or empty) ends in [SystemExit]
    before it reads a file, sends a request or touches the store. *)
Theorem main_config_error fuel args env w :
  skip_pinecone args = false →
  truthy_opt (OPENAI_API_KEY env) = false
  ∨ truthy_opt (PINECONE_API_KEY env) = false
  ∨ truthy_opt (pinecone_host args) = false →
  ∃ msg, main fuel args env w = (Err (SystemExit msg), w).
Proof.
  intros Hskip Hmissing. rewrite main_steps. unfold config_error.
  rewrite Hskip. simpl.
  destruct (truthy_opt (OPENAI_API_KEY env)); simpl; [|by eexists].
  destruct (truthy_opt (PINECONE_API_KEY env)); simpl; [|by eexists].
  destruct (truthy_opt (pinecone_host args)); simpl; [|by eexists].
  by destruct Hmissing as [?|[?|?]].
Qed.

(** X25.  A run ends well only if the chunks it built have distinct ids, and
    then the table holds exactly one row per chunk, stamped with the time of
    the run. *)
Theorem main_ok_store fuel args env w w' :
  main fuel args env w = (Ok (), w') →
  ∃ chunks,
    build_chunks fuel (w_data_dir w) (chunk_size args) (chunk_overlap args)
    = Ok chunks
    ∧ NoDup (chunk_id <$> chunks)
    ∧ w_sqlite w' = Table (chunk_row (w_now w) <$> chunks).
Proof.
  intros (chunks & Hbuild & Hpersist)%main_ok. exists chunks.
  rewrite persist_sqlite_spec in Hpersist.
  destruct (decide (NoDup (chunk_id <$> chunks))); [|done].
  by injection Hpersist as <-.
Qed.

(** X26.  A run that cannot build its chunks, because the directory is
    missing or a file does not parse, changes nothing: no request is sent
    and the store is left as it was. *)
Theorem main_build_failure fuel args env w e :
  build_chunks fuel (w_data_dir w) (chunk_size args) (chunk_overlap args)
  = Err e →
  (main fuel args env w).2 = w
  ∧ ∃ e', (main fuel args env w).1 = Err e'.
Proof.
  intros Hbuild. rewrite main_steps.
  destruct (config_error args env) as [msg|]; [by eauto|].
  unfold run, bind, lift. rewrite Hbuild. by eauto.
Qed.
End ClientResults.

Lemma embed_returns_witness :
  ∃ new : list (request Z * response Z),
    concat (request_input ∘ fst <$> new) = ["one"; "two"; "three"]
    ∧ [0; 0; 0] = concat ((λ x, default [] (embeddings x.2)) <$> new).
Proof.
  destruct (embed_returns (svc := answering 200)
              {| oe_api_key := "sk"; oe_model := "m"; oe_batch_size := 2 |}
              ["one"; "two"; "three"] (sample_world 200) [0; 0; 0]
              (embed (svc := answering 200)
                 {| oe_api_key := "sk"; oe_model := "m"; oe_batch_size := 2 |}
                 ["one"; "two"; "three"] (sample_world 200)).2
              ltac:(simpl; lia) ltac:(by vm_compute))
    as (new & _ & ? & ?).
  by exists new.
Defined.



Lemma main_config_error_witness :
  ∃ msg,
    main (lib := sample_library) 5 sample_args
      {| OPENAI_API_KEY := Some ""; PINECONE_API_KEY := Some "pk" |}
      (sample_world 200)
    = (Err (SystemExit msg), sample_world 200).
Proof.
  apply (main_config_error (lib := sample_library)); [done|by left].
Defined.

Lemma main_ok_store_witness :
  ∃ chunks,
    NoDup (chunk_id <$> chunks)
    ∧ w_sqlite (sample_after 200)
      = Table (chunk_row (w_now (sample_world 200)) <$> chunks).
Proof.
  destruct (main_ok_store (lib := sample_library) 5 sample_args sample_env
              (sample_world 200) (sample_after 200) ltac:(by vm_compute))
    as (chunks & _ & Hnd & Hstore).
  exists chunks. split; [exact Hnd|exact Hstore].
Defined.

Lemma main_build_failure_witness :
  (main (lib := sample_library) 5 sample_args sample_env
     (@Build_World (answering 200) None NoFile () [] "t")).2
  = @Build_World (answering 200) None NoFile () [] "t".
Proof.
  eapply (main_build_failure (lib := sample_library)). reflexivity.
Defined.

Lemma main_skip_pinecone_witness :
  w_http (main (lib := sample_library) 5
            {| pinecone_host := None; pinecone_namespace := None;
               pinecone_batch_size := 32; chunk_size := 900;
               chunk_overlap := 150; skip_pinecone := true;
               embedding_model := "m" |}
            {| OPENAI_API_KEY := None; PINECONE_API_KEY := None |}
            (sample_world 200)).2 = [].
Proof.
  eapply (main_skip_pinecone (lib := sample_library)); [done|].
  by vm_compute.
Defined.
